(** * Pulse front end: the React islands that start, stream and stop runs

    A shallow embedding of the state handlers of the four interactive
    components of the Pulse front end:

    - [ScenarioOrchestrator]  (attack-scenario runs),
    - [EventGenerator]        (single-generator runs),
    - [FileUploader]          (upload intake and file processing),
    - [DestinationManager]    (creation of HEC and syslog destinations).

    A component is a record of its [useState] cells. A synchronous handler
    is a function on that record. An [async] handler is cut at its [await]
    points: the part before the first [await] runs when the handler is
    invoked, and every later part runs when the environment delivers the
    awaited value (a response, a chunk of the body, the end of the body,
    a rejection). The network is the list of requests issued so far. *)

From stdpp Require Import base list strings gmap pretty sorting.
From Stdlib Require Import ZArith Ascii.
From Stdlib Require QArith_base.

Local Open Scope string_scope.
Local Open Scope list_scope.
Local Open Scope nat_scope.

(** ** The JavaScript operations the handlers use *)

Module Js.

(** [!!s] for a string: only the empty string is falsy. *)
Definition truthy (s : string) : bool := negb (String.eqb s "").

(** [l.slice(-n)] for [n > 0]: the last [n] elements, all of [l] when it
    has fewer. *)
Definition slice_last {A} (n : nat) (l : list A) : list A :=
  drop (length l - n) l.

(** [s.split(sep)] for a one-character separator; never empty. *)
Fixpoint split (sep : ascii) (s : string) : list string :=
  match s with
  | "" => [""]
  | String c rest =>
      if Ascii.eqb c sep then "" :: split sep rest
      else match split sep rest with
           | seg :: segs => String c seg :: segs
           | [] => [String c ""]
           end
  end.

(** White space of [trim], on the ASCII range: tab, line feed, vertical
    tab, form feed, carriage return and space. The spaces outside ASCII
    that [trim] also strips (U+00A0, U+FEFF and the like) are not
    stripped here: a line of such spaces alone counts as not blank. *)
Fixpoint trimStart (s : string) : string :=
  match s with
  | String c rest => if Ascii.is_space c then trimStart rest else s
  | "" => ""
  end.

Definition trimEnd (s : string) : string :=
  String.rev (trimStart (String.rev s)).

Definition trim (s : string) : string := trimEnd (trimStart s).

(** [s.toLowerCase()] on the ASCII letters. Letters outside ASCII are
    left as they are, also the few that lower-case into ASCII (U+212A
    into k). *)
Definition lower_ascii (c : ascii) : ascii :=
  let n := N_of_ascii c in
  if ((65 <=? n) && (n <=? 90))%N then ascii_of_N (n + 32) else c.

Fixpoint toLowerCase (s : string) : string :=
  match s with
  | "" => ""
  | String c rest => String (lower_ascii c) (toLowerCase rest)
  end.

(** [s.toUpperCase()] on the ASCII letters. *)
Definition upper_ascii (c : ascii) : ascii :=
  let n := N_of_ascii c in
  if ((97 <=? n) && (n <=? 122))%N then ascii_of_N (n - 32) else c.

Fixpoint toUpperCase (s : string) : string :=
  match s with
  | "" => ""
  | String c rest => String (upper_ascii c) (toUpperCase rest)
  end.

(** [l.includes(x)] and [l.join(sep)] on arrays of strings. *)
Definition includes (l : list string) (x : string) : bool :=
  existsb (String.eqb x) l.

Definition join (sep : string) (l : list string) : string :=
  String.concat sep l.

(** [s.startsWith(p)], [s.substring(a)] and [s.substring(a, b)], the
    latter for [a <= b]. *)
Definition startsWith (p s : string) : bool := String.prefix p s.

Definition substring_from (a : nat) (s : string) : string :=
  String.substring a (String.length s - a) s.

Definition substring (a b : nat) (s : string) : string :=
  String.substring a (b - a) s.

(** A number that may be [NaN]. Integers are exact, where the program
    has doubles: the two agree on the integers of absolute value below
    2^53, and only there. Beyond, the program rounds to the nearest double
    and the model does not. *)
Definition number : Type := option Z.

Definition digit_val (radix : Z) (c : ascii) : option Z :=
  let n := Z.of_N (N_of_ascii c) in
  let v := if ((48 <=? n) && (n <=? 57))%Z then Some (n - 48)%Z
           else if ((97 <=? n) && (n <=? 122))%Z then Some (n - 87)%Z
           else if ((65 <=? n) && (n <=? 90))%Z then Some (n - 55)%Z
           else None in
  match v with
  | Some d => if (d <? radix)%Z then Some d else None
  | None => None
  end.

(** The longest prefix of digits of the radix; [None] when there is no
    digit at all. *)
Fixpoint digits (radix : Z) (acc : option Z) (s : string) : option Z :=
  match s with
  | "" => acc
  | String c rest =>
      match digit_val radix c with
      | Some d => digits radix (Some (radix * default 0 acc + d)%Z) rest
      | None => acc
      end
  end.

(** [parseInt(s)]: leading white space, an optional sign, an optional
    [0x] prefix, then digits; [NaN] when no digit follows. *)
Definition parseInt (s : string) : number :=
  let s1 := trimStart s in
  let '(sign, s2) :=
    match s1 with
    | String "-"%char r => ((-1)%Z, r)
    | String "+"%char r => (1%Z, r)
    | _ => (1%Z, s1)
    end in
  let '(radix, s3) :=
    match s2 with
    | String "0"%char (String "x"%char r) => (16%Z, r)
    | String "0"%char (String "X"%char r) => (16%Z, r)
    | _ => (10%Z, s2)
    end in
  (λ n, sign * n)%Z <$> digits radix None s3.

(** [n || d] for numbers: [NaN] and [0] are falsy. *)
Definition or_number (n : number) (d : Z) : Z :=
  match n with
  | Some v => if (v =? 0)%Z then d else v
  | None => d
  end.

(** A value caught by [catch (err)]: an [Error] with its message, or
    anything else. *)
Inductive Thrown :=
  | ErrorObj (message : string)
  | NonError.

(** [err instanceof Error ? err.message : fallback] *)
Definition message_or (fallback : string) (t : Thrown) : string :=
  match t with
  | ErrorObj m => m
  | NonError => fallback
  end.

(** The lines of a decoded chunk that are not blank:
    [chunk.split('\n').filter(line => line.trim())]. *)
Definition lines (chunk : string) : list string :=
  List.filter (λ line, truthy (trim line)) (split "010" chunk).

End Js.

(** The progress-log update of the three streaming loops:
    [prev => [...prev.slice(-n), line]]. *)
Definition keepLast (n : nat) (prev : list string) (line : string) : list string :=
  Js.slice_last n prev ++ [line].

(** ** ScenarioOrchestrator *)

Module ScenarioOrchestrator.

Inductive DestinationType := hec | syslog.

Global Instance DestinationType_eq_dec : EqDecision DestinationType.
Proof. solve_decision. Defined.

Record Destination := {
  dest_id : string;
  dest_name : string;
  dest_type : DestinationType
}.

Global Instance Destination_eq_dec : EqDecision Destination.
Proof. solve_decision. Defined.

Record ScenarioConfig := {
  scenario_id : string;
  destination_id : string;
  workers : Z;
  tag_phase : bool;
  tag_trace : bool;
  trace_id : string;
  generate_noise : bool;
  noise_events_count : Z
}.

(** The [useState] cells of the component. The scenario catalogue, set
    once on mount from a constant of the file, is [scenarioIds] below. *)
Record State := {
  destinations : list Destination;
  config : ScenarioConfig;
  isRunning : bool;
  progress : list string;
  loading : bool;
  error : string
}.

Definition initialConfig : ScenarioConfig :=
  {| scenario_id := ""; destination_id := ""; workers := 10;
     tag_phase := true; tag_trace := true; trace_id := "";
     generate_noise := false; noise_events_count := 1200 |}.

Definition initialState : State :=
  {| destinations := []; config := initialConfig; isRunning := false;
     progress := []; loading := true; error := "" |}.

(** The state setters. *)
Definition setConfig (c : ScenarioConfig) (s : State) : State :=
  {| destinations := destinations s; config := c; isRunning := isRunning s;
     progress := progress s; loading := loading s; error := error s |}.

Definition setIsRunning (b : bool) (s : State) : State :=
  {| destinations := destinations s; config := config s; isRunning := b;
     progress := progress s; loading := loading s; error := error s |}.

Definition setProgress (f : list string → list string) (s : State) : State :=
  {| destinations := destinations s; config := config s; isRunning := isRunning s;
     progress := f (progress s); loading := loading s; error := error s |}.

Definition setError (e : string) (s : State) : State :=
  {| destinations := destinations s; config := config s; isRunning := isRunning s;
     progress := progress s; loading := loading s; error := e |}.

Definition setDestinations (ds : list Destination) (s : State) : State :=
  {| destinations := ds; config := config s; isRunning := isRunning s;
     progress := progress s; loading := loading s; error := error s |}.

Definition setLoading (b : bool) (s : State) : State :=
  {| destinations := destinations s; config := config s; isRunning := isRunning s;
     progress := progress s; loading := b; error := error s |}.

(** [{...config, field: v}] for the fields the handlers write. *)
Definition with_scenario_id (v : string) (c : ScenarioConfig) : ScenarioConfig :=
  {| scenario_id := v; destination_id := destination_id c; workers := workers c;
     tag_phase := tag_phase c; tag_trace := tag_trace c; trace_id := trace_id c;
     generate_noise := generate_noise c; noise_events_count := noise_events_count c |}.

Definition with_destination_id (v : string) (c : ScenarioConfig) : ScenarioConfig :=
  {| scenario_id := scenario_id c; destination_id := v; workers := workers c;
     tag_phase := tag_phase c; tag_trace := tag_trace c; trace_id := trace_id c;
     generate_noise := generate_noise c; noise_events_count := noise_events_count c |}.

Definition with_workers (v : Z) (c : ScenarioConfig) : ScenarioConfig :=
  {| scenario_id := scenario_id c; destination_id := destination_id c; workers := v;
     tag_phase := tag_phase c; tag_trace := tag_trace c; trace_id := trace_id c;
     generate_noise := generate_noise c; noise_events_count := noise_events_count c |}.

Definition with_tag_phase (v : bool) (c : ScenarioConfig) : ScenarioConfig :=
  {| scenario_id := scenario_id c; destination_id := destination_id c; workers := workers c;
     tag_phase := v; tag_trace := tag_trace c; trace_id := trace_id c;
     generate_noise := generate_noise c; noise_events_count := noise_events_count c |}.

Definition with_generate_noise (v : bool) (c : ScenarioConfig) : ScenarioConfig :=
  {| scenario_id := scenario_id c; destination_id := destination_id c; workers := workers c;
     tag_phase := tag_phase c; tag_trace := tag_trace c; trace_id := trace_id c;
     generate_noise := v; noise_events_count := noise_events_count c |}.

Definition with_noise_events_count (v : Z) (c : ScenarioConfig) : ScenarioConfig :=
  {| scenario_id := scenario_id c; destination_id := destination_id c; workers := workers c;
     tag_phase := tag_phase c; tag_trace := tag_trace c; trace_id := trace_id c;
     generate_noise := generate_noise c; noise_events_count := v |}.

Definition with_tag_trace (v : bool) (c : ScenarioConfig) : ScenarioConfig :=
  {| scenario_id := scenario_id c; destination_id := destination_id c; workers := workers c;
     tag_phase := tag_phase c; tag_trace := v; trace_id := trace_id c;
     generate_noise := generate_noise c; noise_events_count := noise_events_count c |}.

Definition with_trace_id (v : string) (c : ScenarioConfig) : ScenarioConfig :=
  {| scenario_id := scenario_id c; destination_id := destination_id c; workers := workers c;
     tag_phase := tag_phase c; tag_trace := tag_trace c; trace_id := v;
     generate_noise := generate_noise c; noise_events_count := noise_events_count c |}.

(** *** Synchronous handlers *)

Definition stopScenario (s : State) : State :=
  setProgress (λ prev, prev ++ ["Scenario execution stopped by user"])
    (setIsRunning false s).

Definition clearProgress (s : State) : State :=
  setError "" (setProgress (λ _, []) s).

(** [timestamp] is the text of [Date.now().toString(36)] and [random]
    that of [Math.random().toString(36)]. *)
Definition generateTraceId (timestamp random : string) (s : State) : State :=
  setConfig
    (with_trace_id ("pulse-" +:+ timestamp +:+ "-" +:+ Js.substring 2 8 random)
       (config s)) s.

(** The [onChange] handlers of the form; [value] is [e.target.value]. *)
Definition workers_onChange (value : string) (s : State) : State :=
  setConfig (with_workers (Js.or_number (Js.parseInt value) 1) (config s)) s.

Definition noise_events_onChange (value : string) (s : State) : State :=
  setConfig (with_noise_events_count (Js.or_number (Js.parseInt value) 0) (config s)) s.

Definition tag_phase_onChange (checked : bool) (s : State) : State :=
  setConfig (with_tag_phase checked (config s)) s.

Definition generate_noise_onChange (checked : bool) (s : State) : State :=
  setConfig (with_generate_noise checked (config s)) s.

Definition trace_id_onChange (value : string) (s : State) : State :=
  setConfig (with_trace_id value (config s)) s.

Definition tag_trace_onChange (checked : bool) (s : State) : State :=
  setConfig (with_tag_trace checked (config s)) s.

Definition scenario_onChange (value : string) (s : State) : State :=
  setConfig (with_scenario_id value (config s)) s.

Definition destination_onChange (value : string) (s : State) : State :=
  setConfig (with_destination_id value (config s)) s.

(** The ids of the scenario catalogue, the values of the scenario
    [select]. *)
Definition scenarioIds : list string :=
  ["attack_scenario_orchestrator"; "enterprise_attack_scenario";
   "finance_mfa_fatigue_scenario"; "insider_cloud_download_exfiltration";
   "showcase_attack_scenario"].

(** The bounds written on the workers input: [min="1"] and [max="50"]. *)
Definition workers_min : Z := 1.
Definition workers_max : Z := 50.

(** The destinations offered by the destination [select]:
    [destinations.filter(d => d.type === 'hec')], each rendered as an
    [option] whose value is the destination's id. *)
Definition offeredDestinations (s : State) : list Destination :=
  List.filter (λ d, bool_decide (dest_type d = hec)) (destinations s).

Definition destinationOptions (s : State) : list (string * string) :=
  ("", "Select a destination...") ::
  map (λ d, (dest_id d, dest_name d +:+ " (SDL HEC)")) (offeredDestinations s).

(** What the control buttons render: the launch button is disabled, the
    stop button is present only during a run, the clear button is
    disabled during a run. *)
Definition launchDisabled (s : State) : bool :=
  isRunning s || negb (Js.truthy (scenario_id (config s)))
              || negb (Js.truthy (destination_id (config s))).

Definition stopRendered (s : State) : bool := isRunning s.

Definition clearDisabled (s : State) : bool := isRunning s.

(** *** [runScenario], cut at its [await]s *)

Inductive Request :=
  | GetDestinations
  | PostScenarioRun (body : ScenarioConfig).

(** Where an invocation of [runScenario] is suspended. *)
Inductive RunPc :=
  | AwaitingResponse
  | AwaitingRead
  | Settled.

Global Instance RunPc_eq_dec : EqDecision RunPc.
Proof. solve_decision. Defined.

Record World := {
  ui : State;
  runs : list RunPc;
  requests : list Request
}.

Definition with_ui (f : State → State) (w : World) : World :=
  {| ui := f (ui w); runs := runs w; requests := requests w |}.

(** Up to [await fetch(...)]. *)
Definition runScenario (w : World) : World :=
  let cfg := config (ui w) in
  if negb (Js.truthy (scenario_id cfg)) || negb (Js.truthy (destination_id cfg))
  then with_ui (setError "Please select both scenario and destination") w
  else
    {| ui := setError ""
               (setProgress (λ _, ["Initializing attack scenario..."])
                  (setIsRunning true (ui w)));
       runs := runs w ++ [AwaitingResponse];
       requests := requests w ++ [PostScenarioRun cfg] |}.

(** What the environment delivers to a suspended invocation. *)
Inductive RunEvent :=
  | FetchRejected (t : Js.Thrown)
  | Response (ok : bool) (status : Z) (statusText : string) (hasBody : bool)
  | Chunk (text : string)
  | StreamDone
  | ReadRejected (t : Js.Thrown).

Definition appendProgress (prev : list string) (line : string) : list string :=
  keepLast 30 prev line.

(** The body of the [while] loop for one chunk. *)
Definition onChunk (text : string) (s : State) : State :=
  foldl (λ s line, setProgress (λ prev, appendProgress prev line) s) s (Js.lines text).

(** The end of the [try] block followed by [finally]. *)
Definition completed (s : State) : State :=
  setIsRunning false
    (setProgress (λ prev, prev ++ ["Attack scenario completed successfully!"]) s).

(** The [catch] block followed by [finally]. *)
Definition failed (t : Js.Thrown) (s : State) : State :=
  let errorMsg := Js.message_or "Scenario execution failed" t in
  setIsRunning false
    (setProgress (λ prev, prev ++ ["ERROR: " +:+ errorMsg]) (setError errorMsg s)).

Definition resume (pc : RunPc) (e : RunEvent) (s : State) : RunPc * State :=
  match pc, e with
  | AwaitingResponse, FetchRejected t => (Settled, failed t s)
  | AwaitingResponse, Response false status statusText _ =>
      (Settled,
       failed (Js.ErrorObj ("HTTP " +:+ pretty status +:+ ": " +:+ statusText)) s)
  | AwaitingResponse, Response true _ _ false => (Settled, completed s)
  | AwaitingResponse, Response true _ _ true => (AwaitingRead, s)
  | AwaitingRead, Chunk text => (AwaitingRead, onChunk text s)
  | AwaitingRead, StreamDone => (Settled, completed s)
  | AwaitingRead, ReadRejected t => (Settled, failed t s)
  | _, _ => (pc, s)
  end.

(** *** The component as a transition system *)

Inductive Action :=
  | ClickLaunch
  | ClickStop
  | ClickClear
  | ClickGenerate (timestamp random : string)
  | ChangeScenario (value : string)
  | ChangeDestination (value : string)
  | ChangeWorkers (value : string)
  | ChangeNoiseEvents (value : string)
  | ChangeTagPhase (checked : bool)
  | ChangeGenerateNoise (checked : bool)
  | ChangeTagTrace (checked : bool)
  | ChangeTraceId (value : string)
  | DestinationsFetched (result : option (list Destination))
  | Deliver (i : nat) (e : RunEvent).

(** The outcome of [fetchDestinations], started on mount: the list in
    the response ([data.destinations || []]) or a failure. *)
Definition fetchDestinations_settled (result : option (list Destination))
    (s : State) : State :=
  match result with
  | Some ds => setLoading false (setDestinations ds s)
  | None => setLoading false (setError "Failed to fetch destinations" s)
  end.

(** A control acts only when it is rendered and enabled: nothing but a
    placeholder is rendered while [loading], and the inputs of the form
    are disabled during a run. *)
Definition control (hidden : bool) (f : World → World) (w : World) : World :=
  if loading (ui w) || hidden then w else f w.

Definition step (w : World) (a : Action) : World :=
  let s := ui w in
  match a with
  | ClickLaunch => control (launchDisabled s) runScenario w
  | ClickStop => control (negb (stopRendered s)) (with_ui stopScenario) w
  | ClickClear => control (clearDisabled s) (with_ui clearProgress) w
  | ClickGenerate ts r =>
      control (isRunning s || negb (tag_trace (config s)))
        (with_ui (generateTraceId ts r)) w
  | ChangeScenario v =>
      control (isRunning s || negb (bool_decide (v ∈ "" :: scenarioIds)))
        (with_ui (scenario_onChange v)) w
  | ChangeDestination v =>
      control (isRunning s || negb (bool_decide (v ∈ (destinationOptions s).*1)))
        (with_ui (destination_onChange v)) w
  | ChangeWorkers v => control (isRunning s) (with_ui (workers_onChange v)) w
  | ChangeNoiseEvents v =>
      control (isRunning s || negb (generate_noise (config s)))
        (with_ui (noise_events_onChange v)) w
  | ChangeTagPhase b => control (isRunning s) (with_ui (tag_phase_onChange b)) w
  | ChangeGenerateNoise b =>
      control (isRunning s) (with_ui (generate_noise_onChange b)) w
  | ChangeTagTrace b => control (isRunning s) (with_ui (tag_trace_onChange b)) w
  | ChangeTraceId v =>
      control (isRunning s || negb (tag_trace (config s)))
        (with_ui (trace_id_onChange v)) w
  | DestinationsFetched r => with_ui (fetchDestinations_settled r) w
  | Deliver i e =>
      match runs w !! i with
      | Some pc =>
          let '(pc', s') := resume pc e s in
          {| ui := s'; runs := <[i := pc']> (runs w); requests := requests w |}
      | None => w
      end
  end.

Definition exec (w : World) (trace : list Action) : World := foldl step w trace.

(** After mount: the request of [fetchDestinations] is in flight. *)
Definition initialWorld : World :=
  {| ui := initialState; runs := []; requests := [GetDestinations] |}.

Definition reachable (w : World) : Prop := ∃ trace, w = exec initialWorld trace.

(** The invocations of [runScenario] that have not settled. *)
Definition pending (rs : list RunPc) : nat :=
  length (List.filter (λ pc, negb (bool_decide (pc = Settled))) rs).

(** *** A session *)

Definition nl : string := String "010" "".

(** A session: two destinations arrive, a scenario and the HEC
    destination are selected. *)
Definition sdl : Destination :=
  {| dest_id := "dest-1"; dest_name := "SDL"; dest_type := hec |}.

Definition collector : Destination :=
  {| dest_id := "dest-2"; dest_name := "collector"; dest_type := syslog |}.

Definition ready : World :=
  exec initialWorld
    [DestinationsFetched (Some [sdl; collector]);
     ChangeScenario "showcase_attack_scenario";
     ChangeDestination "dest-1"].

(** The run is launched and its response body is being read. *)
Definition running : World :=
  exec ready [ClickLaunch; Deliver 0 (Response true 200 "OK" true)].

End ScenarioOrchestrator.

(** ** EventGenerator: the streaming loop of [startGeneration] *)

Module EventGenerator.

Definition appendProgress (prev : list string) (line : string) : list string :=
  keepLast 20 prev line.

(** The body of the [while] loop for one chunk, on the progress log:
    only the lines that start with [data: ] are kept, without that
    prefix. *)
Definition onChunk (text : string) (progress : list string) : list string :=
  foldl (λ prev line,
           if Js.startsWith "data: " line
           then appendProgress prev (Js.substring_from 6 line)
           else prev)
        progress (Js.lines text).

(** The lines of a chunk that the loop takes into the log. *)
Definition dataLines (text : string) : list string :=
  map (Js.substring_from 6) (List.filter (Js.startsWith "data: ") (Js.lines text)).

(** The options of the destination [select]: every destination, labelled
    with its name and its type in capitals. *)
Definition type_text (t : ScenarioOrchestrator.DestinationType) : string :=
  match t with
  | ScenarioOrchestrator.hec => "hec"
  | ScenarioOrchestrator.syslog => "syslog"
  end.

Definition destinationOptions (destinations : list ScenarioOrchestrator.Destination)
    : list (string * string) :=
  ("", "Select a destination...") ::
  map (λ d, (ScenarioOrchestrator.dest_id d,
             ScenarioOrchestrator.dest_name d +:+ " (" +:+
             Js.toUpperCase (type_text (ScenarioOrchestrator.dest_type d)) +:+ ")"))
      destinations.

End EventGenerator.

(** ** FileUploader *)

Module FileUploader.

Record UploadedFile := {
  id : string;
  filename : string;
  file_type : string;
  size : Z;
  line_count : Z;
  created_at : string
}.

(** A [File] of the browser, as far as the component reads it. *)
Record File := {
  file_name : string;
  file_size : Z
}.

Inductive Endpoint := event | raw.

Record ProcessConfig := {
  destination : string;
  sourcetype : string;
  batch_size : Z;
  eps : QArith_base.Q;
  endpoint : Endpoint
}.

Record State := {
  files : list UploadedFile;
  destinations : list ScenarioOrchestrator.Destination;
  dragActive : bool;
  uploading : bool;
  processing : option string;
  progress : list string;
  error : string;
  processConfig : ProcessConfig
}.

Definition setFiles (v : list UploadedFile) (s : State) : State :=
  {| files := v; destinations := destinations s;
     dragActive := dragActive s; uploading := uploading s;
     processing := processing s; progress := progress s; error := error s;
     processConfig := processConfig s |}.

Definition setUploading (v : bool) (s : State) : State :=
  {| files := files s; destinations := destinations s;
     dragActive := dragActive s; uploading := v;
     processing := processing s; progress := progress s; error := error s;
     processConfig := processConfig s |}.

Definition setProcessing (v : option string) (s : State) : State :=
  {| files := files s; destinations := destinations s;
     dragActive := dragActive s; uploading := uploading s;
     processing := v; progress := progress s; error := error s;
     processConfig := processConfig s |}.

Definition setProgress (f : list string → list string) (s : State) : State :=
  {| files := files s; destinations := destinations s;
     dragActive := dragActive s; uploading := uploading s;
     processing := processing s; progress := f (progress s); error := error s;
     processConfig := processConfig s |}.

Definition setError (v : string) (s : State) : State :=
  {| files := files s; destinations := destinations s;
     dragActive := dragActive s; uploading := uploading s;
     processing := processing s; progress := progress s; error := v;
     processConfig := processConfig s |}.

(** The body of the request of [processFile]. *)
Record ProcessBody := {
  body_upload_id : string;
  body_destination_id : string;
  body_batch_size : Z;
  body_eps : QArith_base.Q;
  body_sourcetype : string;
  body_endpoint : Endpoint
}.

Inductive Request :=
  | GetUploads
  | GetDestinations
  | PostUpload (file : File)
  | PostProcess (body : ProcessBody).

(** Where an invocation of [handleFiles] or [processFile] is suspended. *)
Inductive Task :=
  | UploadAwaitingResponse
  | UploadAwaitingErrorBody (status : Z)
  | UploadAwaitingFileList
  | ProcessAwaitingResponse
  | ProcessAwaitingRead
  | Settled.

Record World := {
  ui : State;
  tasks : list Task;
  requests : list Request
}.

Definition with_ui (f : State → State) (w : World) : World :=
  {| ui := f (ui w); tasks := tasks w; requests := requests w |}.

(** *** [handleFiles] *)

Definition allowedTypes : list string := [".csv"; ".json"; ".txt"; ".log"; ".gz"].

Definition maxFileSize : Z := 50 * 1024 * 1024.

(** ['.' + file.name.split('.').pop()?.toLowerCase()] *)
Definition fileExt (f : File) : string :=
  "." +:+ match last (Js.split "." (file_name f)) with
          | Some seg => Js.toLowerCase seg
          | None => "undefined"
          end.

(** Up to [await fetch(...)]; [fileList] is the [FileList] of the drop
    or of the file input. *)
Definition handleFiles (fileList : list File) (w : World) : World :=
  match fileList with
  | [] => w
  | file :: _ =>
      if negb (Js.includes allowedTypes (fileExt file)) then
        with_ui (setError ("Invalid file type. Allowed: " +:+ Js.join ", " allowedTypes)) w
      else if (maxFileSize <? file_size file)%Z then
        with_ui (setError "File size must be less than 50MB") w
      else
        {| ui := setError "" (setUploading true (ui w));
           tasks := tasks w ++ [UploadAwaitingResponse];
           requests := requests w ++ [PostUpload file] |}
  end.

(** *** [processFile] *)

Definition processFile (fileId : string) (w : World) : World :=
  let pc := processConfig (ui w) in
  if negb (Js.truthy (destination pc)) || negb (Js.truthy (sourcetype pc))
  then with_ui (setError "Please select destination and enter sourcetype") w
  else
    {| ui := setError ""
               (setProgress (λ _, ["Starting file processing..."])
                  (setProcessing (Some fileId) (ui w)));
       tasks := tasks w ++ [ProcessAwaitingResponse];
       requests := requests w ++
         [PostProcess {| body_upload_id := fileId;
                         body_destination_id := destination pc;
                         body_batch_size := batch_size pc;
                         body_eps := eps pc;
                         body_sourcetype := sourcetype pc;
                         body_endpoint := endpoint pc |}] |}.

Definition appendProgress (prev : list string) (line : string) : list string :=
  keepLast 20 prev line.

Definition onChunk (text : string) (s : State) : State :=
  foldl (λ s line, setProgress (λ prev, appendProgress prev line) s) s (Js.lines text).

Definition processCompleted (s : State) : State :=
  setProcessing None
    (setProgress (λ prev, prev ++ ["File processing completed successfully!"]) s).

Definition processFailed (t : Js.Thrown) (s : State) : State :=
  let errorMsg := Js.message_or "Processing failed" t in
  setProcessing None
    (setProgress (λ prev, prev ++ ["ERROR: " +:+ errorMsg]) (setError errorMsg s)).

Definition uploadFailed (t : Js.Thrown) (s : State) : State :=
  setUploading false (setError (Js.message_or "Upload failed" t) s).

(** What the environment delivers to a suspended invocation. The file
    list is the outcome of the nested [fetchFiles]: [data.uploads || []]
    or a failure, which [fetchFiles] catches itself. *)
Inductive Event :=
  | FetchRejected (t : Js.Thrown)
  | Response (ok : bool) (status : Z) (statusText : string) (hasBody : bool)
  | ErrorBody (error : string)
  | ErrorBodyRejected (t : Js.Thrown)
  | FileList (result : option (list UploadedFile))
  | Chunk (text : string)
  | StreamDone
  | ReadRejected (t : Js.Thrown).

Definition resume (task : Task) (e : Event) (w : World) : Task * World :=
  match task, e with
  | UploadAwaitingResponse, FetchRejected t => (Settled, with_ui (uploadFailed t) w)
  | UploadAwaitingResponse, Response false status _ _ =>
      (UploadAwaitingErrorBody status, w)
  | UploadAwaitingResponse, Response true _ _ _ =>
      (UploadAwaitingFileList,
       {| ui := ui w; tasks := tasks w; requests := requests w ++ [GetUploads] |})
  | UploadAwaitingErrorBody status, ErrorBody err =>
      (Settled,
       with_ui (uploadFailed
                  (Js.ErrorObj (if Js.truthy err then err else "HTTP " +:+ pretty status))) w)
  | UploadAwaitingErrorBody _, ErrorBodyRejected t =>
      (Settled, with_ui (uploadFailed t) w)
  | UploadAwaitingFileList, FileList (Some uploads) =>
      (Settled, with_ui (λ s, setUploading false (setError "" (setFiles uploads s))) w)
  | UploadAwaitingFileList, FileList None =>
      (Settled,
       with_ui (λ s, setUploading false
                       (setError "" (setError "Failed to fetch uploaded files" s))) w)
  | ProcessAwaitingResponse, FetchRejected t => (Settled, with_ui (processFailed t) w)
  | ProcessAwaitingResponse, Response false status statusText _ =>
      (Settled,
       with_ui (processFailed
                  (Js.ErrorObj ("HTTP " +:+ pretty status +:+ ": " +:+ statusText))) w)
  | ProcessAwaitingResponse, Response true _ _ false =>
      (Settled, with_ui processCompleted w)
  | ProcessAwaitingResponse, Response true _ _ true => (ProcessAwaitingRead, w)
  | ProcessAwaitingRead, Chunk text => (ProcessAwaitingRead, with_ui (onChunk text) w)
  | ProcessAwaitingRead, StreamDone => (Settled, with_ui processCompleted w)
  | ProcessAwaitingRead, ReadRejected t => (Settled, with_ui (processFailed t) w)
  | _, _ => (task, w)
  end.

(** The environment delivers [e] to the invocation numbered [i]. *)
Definition deliver (i : nat) (e : Event) (w : World) : World :=
  match tasks w !! i with
  | Some task =>
      let '(task', w') := resume task e w in
      {| ui := ui w'; tasks := <[i := task']> (tasks w'); requests := requests w' |}
  | None => w
  end.

(** The options of the destination [select] of the processing form:
    [destinations.filter(d => d.type === 'hec')]. *)
Definition destinationOptions (s : State) : list (string * string) :=
  ("", "Select destination...") ::
  map (λ d, (ScenarioOrchestrator.dest_id d,
             ScenarioOrchestrator.dest_name d +:+ " (HEC)"))
      (List.filter
         (λ d, bool_decide (ScenarioOrchestrator.dest_type d = ScenarioOrchestrator.hec))
         (destinations s)).

(** *** The cells as [useState] initialises them, and sample files *)

Definition initialState : State :=
  {| files := []; destinations := []; dragActive := false; uploading := false;
     processing := None; progress := []; error := "";
     processConfig :=
       {| destination := ""; sourcetype := ""; batch_size := 100;
          eps := QArith_base.Qmake 10 1; endpoint := event |} |}.

(** A sample world: the initial cells, nothing requested, nothing
    pending. *)
Definition initialWorld : World :=
  {| ui := initialState; tasks := []; requests := [] |}.

(** A file whose name has no dot. *)
Definition dotless : File := {| file_name := "csv"; file_size := 10 |}.

Definition malware : File := {| file_name := "dropper.exe"; file_size := 4096 |}.
Definition events : File := {| file_name := "Events.2024.JSON"; file_size := 4096 |}.
Definition archive : File :=
  {| file_name := "big.log.gz"; file_size := 50 * 1024 * 1024 + 1 |}.

End FileUploader.

(** ** DestinationManager: the request of [handleSubmit] *)

Module DestinationManager.

Inductive DestinationType := hec | syslog.
Inductive Protocol := TCP | UDP.

Record FormData := {
  name : string;
  type : DestinationType;
  url : string;
  ip : string;
  port : string;
  protocol : Protocol
}.

Definition initialFormData : FormData :=
  {| name := ""; type := hec; url := ""; ip := ""; port := ""; protocol := TCP |}.

(** The values of a payload: strings, and numbers that may be [NaN]. *)
Inductive Value :=
  | Str (s : string)
  | Num (n : Js.number).

Definition type_text (t : DestinationType) : string :=
  match t with hec => "hec" | syslog => "syslog" end.

Definition protocol_text (p : Protocol) : string :=
  match p with TCP => "TCP" | UDP => "UDP" end.

(** The object [{ name, type, ...(type === 'hec' ? {url} : {ip, port,
    protocol}) }]; the keys of the spread win over earlier ones. *)
Definition payload (formData : FormData) : gmap string Value :=
  (match type formData with
   | hec => {[ "url" := Str (url formData) ]}
   | syslog =>
       <[ "ip" := Str (ip formData) ]>
         (<[ "port" := Num (Js.parseInt (port formData)) ]>
            {[ "protocol" := Str (protocol_text (protocol formData)) ]})
   end)
  ∪ <[ "name" := Str (name formData) ]>
      {[ "type" := Str (type_text (type formData)) ]}.

Inductive Request :=
  | GetDestinations
  | PostDestination (body : gmap string Value)
  | DeleteDestination (id : string).

(** The request issued by [handleSubmit] before its first [await]. *)
Definition handleSubmit (formData : FormData) : Request :=
  PostDestination (payload formData).

(** *** The component *)

Record Destination := {
  dest_id : string;
  dest_name : string;
  dest_type : DestinationType;
  dest_url : option string;
  dest_ip : option string;
  dest_port : option Z;
  dest_protocol : option Protocol;
  created_at : string
}.

Record State := {
  destinations : list Destination;
  loading : bool;
  error : string;
  showAddForm : bool;
  formData : FormData
}.

Definition initialState : State :=
  {| destinations := []; loading := true; error := ""; showAddForm := false;
     formData := initialFormData |}.

Definition setDestinations (v : list Destination) (s : State) : State :=
  {| destinations := v; loading := loading s; error := error s;
     showAddForm := showAddForm s; formData := formData s |}.

Definition setLoading (v : bool) (s : State) : State :=
  {| destinations := destinations s; loading := v; error := error s;
     showAddForm := showAddForm s; formData := formData s |}.

Definition setError (v : string) (s : State) : State :=
  {| destinations := destinations s; loading := loading s; error := v;
     showAddForm := showAddForm s; formData := formData s |}.

Definition setShowAddForm (v : bool) (s : State) : State :=
  {| destinations := destinations s; loading := loading s; error := error s;
     showAddForm := v; formData := formData s |}.

Definition setFormData (v : FormData) (s : State) : State :=
  {| destinations := destinations s; loading := loading s; error := error s;
     showAddForm := showAddForm s; formData := v |}.

(** Where an invocation of [fetchDestinations], [handleSubmit] or
    [handleDelete] is suspended. The last two end in
    [await fetchDestinations()], which catches its own failures, and so go
    on as an invocation of [fetchDestinations]. *)
Inductive Task :=
  | FetchAwaitingResponse
  | FetchAwaitingBody
  | SubmitAwaitingResponse
  | SubmitAwaitingErrorBody (status : Z)
  | DeleteAwaitingResponse
  | Settled.

Record World := {
  ui : State;
  tasks : list Task;
  requests : list Request
}.

Definition with_ui (f : State → State) (w : World) : World :=
  {| ui := f (ui w); tasks := tasks w; requests := requests w |}.

(** [fetchDestinations] up to [await fetch(...)], as the continuation of
    an invocation. *)
Definition fetchDestinations_start (w : World) : World :=
  {| ui := setLoading true (ui w); tasks := tasks w;
     requests := requests w ++ [GetDestinations] |}.

(** The three handlers up to their first [await], as new invocations.
    [confirmed] is the answer to the [confirm] dialogue. *)
Definition fetchDestinations (w : World) : World :=
  let w' := fetchDestinations_start w in
  {| ui := ui w'; tasks := tasks w' ++ [FetchAwaitingResponse];
     requests := requests w' |}.

Definition submit (w : World) : World :=
  {| ui := ui w; tasks := tasks w ++ [SubmitAwaitingResponse];
     requests := requests w ++ [handleSubmit (formData (ui w))] |}.

Definition handleDelete (id : string) (confirmed : bool) (w : World) : World :=
  if negb confirmed then w
  else {| ui := ui w; tasks := tasks w ++ [DeleteAwaitingResponse];
          requests := requests w ++ [DeleteDestination id] |}.

(** The [catch] and [finally] blocks of [fetchDestinations]. *)
Definition fetchFailed (t : Js.Thrown) (s : State) : State :=
  setLoading false (setError (Js.message_or "Failed to fetch destinations" t) s).

(** What the environment delivers: a rejection of [fetch], a response, the
    list of a destinations body ([data.destinations || []]), the [error]
    field of an error body (empty when absent), a rejection of [json()]. *)
Inductive Event :=
  | FetchRejected (t : Js.Thrown)
  | Response (ok : bool) (status : Z) (statusText : string)
  | Body (ds : list Destination)
  | ErrorBody (err : string)
  | BodyRejected (t : Js.Thrown).

Definition resume (task : Task) (e : Event) (w : World) : Task * World :=
  match task, e with
  | FetchAwaitingResponse, FetchRejected t => (Settled, with_ui (fetchFailed t) w)
  | FetchAwaitingResponse, Response false status statusText =>
      (Settled,
       with_ui (fetchFailed
                  (Js.ErrorObj ("HTTP " +:+ pretty status +:+ ": " +:+ statusText))) w)
  | FetchAwaitingResponse, Response true _ _ => (FetchAwaitingBody, w)
  | FetchAwaitingBody, Body ds =>
      (Settled, with_ui (λ s, setLoading false (setError "" (setDestinations ds s))) w)
  | FetchAwaitingBody, BodyRejected t => (Settled, with_ui (fetchFailed t) w)
  | SubmitAwaitingResponse, FetchRejected t =>
      (Settled, with_ui (setError (Js.message_or "Failed to create destination" t)) w)
  | SubmitAwaitingResponse, Response false status _ =>
      (SubmitAwaitingErrorBody status, w)
  | SubmitAwaitingResponse, Response true _ _ =>
      (FetchAwaitingResponse,
       fetchDestinations_start
         (with_ui (λ s, setShowAddForm false (setFormData initialFormData s)) w))
  | SubmitAwaitingErrorBody status, ErrorBody err =>
      (Settled,
       with_ui (setError (if Js.truthy err then err else "HTTP " +:+ pretty status)) w)
  | SubmitAwaitingErrorBody _, BodyRejected t =>
      (Settled, with_ui (setError (Js.message_or "Failed to create destination" t)) w)
  | DeleteAwaitingResponse, FetchRejected t =>
      (Settled, with_ui (setError (Js.message_or "Failed to delete destination" t)) w)
  | DeleteAwaitingResponse, Response false status _ =>
      (Settled, with_ui (setError ("HTTP " +:+ pretty status)) w)
  | DeleteAwaitingResponse, Response true _ _ =>
      (FetchAwaitingResponse, fetchDestinations_start w)
  | _, _ => (task, w)
  end.

Definition deliver (i : nat) (e : Event) (w : World) : World :=
  match tasks w !! i with
  | Some task =>
      let '(task', w') := resume task e w in
      {| ui := ui w'; tasks := <[i := task']> (tasks w'); requests := requests w' |}
  | None => w
  end.

(** After mount: [fetchDestinations] has been called. *)
Definition initialWorld : World :=
  fetchDestinations {| ui := initialState; tasks := []; requests := [] |}.

End DestinationManager.

(** ** GeneratorSelector *)

Module GeneratorSelector.

Record Generator := {
  id : string;
  name : string;
  category : string;
  file_path : string
}.

(** [[...new Set(l)]]: the elements of [l] in the order of their first
    occurrence. *)
Definition unique (l : list string) : list string :=
  foldl (λ seen x, if Js.includes seen x then seen else seen ++ [x]) [] l.

(** [l.sort()] on strings: ascending by bytes. That is the order of the
    UTF-16 code units, which [sort] uses, except between a character
    beyond U+FFFF and one in U+E000..U+FFFF. *)
Definition sort (l : list string) : list string := merge_sort String.le l.

(** [[...new Set(generators.map(g => g.category))].sort()] *)
Definition categories (generators : list Generator) : list string :=
  sort (unique (map category generators)).

(** [selectedCategory ? generators.filter(g => g.category ===
    selectedCategory) : generators] *)
Definition filteredGenerators (selectedCategory : string)
    (generators : list Generator) : list Generator :=
  if Js.truthy selectedCategory
  then List.filter (λ g, String.eqb (category g) selectedCategory) generators
  else generators.

(** The count shown beside a category:
    [generators.filter(g => g.category === category).length]. *)
Definition count (generators : list Generator) (c : string) : nat :=
  length (List.filter (λ g, String.eqb (category g) c) generators).

(** The options of the category [select], value and label. *)
Definition categoryOptions (generators : list Generator) : list (string * string) :=
  ("", "All Categories (" +:+ pretty (length generators) +:+ " generators)") ::
  map (λ c, (c, c +:+ " (" +:+ pretty (count generators c) +:+ " generators)"))
      (categories generators).

End GeneratorSelector.

(** ** StatusDashboard: the pure helpers *)

Module StatusDashboard.



(** The [switch] of both status helpers: the first group of cases that
    holds the lower-cased status. *)
Definition getStatusColor (status : string) : string :=
  let s := Js.toLowerCase status in
  if Js.includes ["healthy"; "connected"; "ok"] s then "text-green"
  else if Js.includes ["degraded"; "warning"] s then "text-yellow"
  else if Js.includes ["unhealthy"; "error"; "disconnected"] s then "text-red"
  else "text-subtext1".

Definition getStatusIcon (status : string) : string :=
  let s := Js.toLowerCase status in
  if Js.includes ["healthy"; "connected"; "ok"] s then "●"
  else if Js.includes ["degraded"; "warning"] s then "◐"
  else if Js.includes ["unhealthy"; "error"; "disconnected"] s then "●"
  else "○".

End StatusDashboard.

(** ** The three streaming loops side by side *)

Inductive Stream := ScenarioRun | Generation | FileProcessing.

(** The argument of [slice] in each loop. *)
Definition retained (c : Stream) : nat :=
  match c with
  | ScenarioRun => 30
  | Generation | FileProcessing => 20
  end.

Definition appendProgressOf (c : Stream) : list string → string → list string :=
  match c with
  | ScenarioRun => ScenarioOrchestrator.appendProgress
  | Generation => EventGenerator.appendProgress
  | FileProcessing => FileUploader.appendProgress
  end.

(** The entries of [result] that are neither an entry of [prev] nor [line]:
    what an update would have made up. *)
Definition synthetic (prev : list string) (line : string) (result : list string)
    : list string :=
  List.filter (λ x, negb (Js.includes prev x) && negb (String.eqb x line)) result.

(** A full log of the scenario orchestrator, and the line that arrives. *)
Definition fullLog : list string := replicate 31 "INFO: batch delivered".
Definition nextLine : string := "INFO: run at 50%".

(** * Properties *)

Example split_lines :
  Js.lines ("PHASE 1" +:+ String "010" ("  " +:+ String "010" "INFO ok"))
    = ["PHASE 1"; "INFO ok"].
Proof. reflexivity. Qed.

Example parseInt_examples :
  Js.parseInt "100" = Some 100%Z ∧ Js.parseInt "-5" = Some (-5)%Z ∧
  Js.parseInt "" = None ∧ Js.parseInt "0x1F" = Some 31%Z ∧
  Js.parseInt " 42px" = Some 42%Z ∧ Js.parseInt "abc" = None.
Proof. repeat split; reflexivity. Qed.

(** ** The progress log *)

Section ProgressLog.

Implicit Types (prev : list string) (line : string) (n : nat).

Lemma slice_last_length {A} n (l : list A) :
  length (Js.slice_last n l) = min n (length l).
Proof. unfold Js.slice_last. rewrite length_drop. lia. Qed.

Lemma slice_last_short {A} n (l : list A) :
  length l ≤ n → Js.slice_last n l = l.
Proof.
  intros Hle. unfold Js.slice_last.
  replace (length l - n) with 0 by lia. reflexivity.
Qed.

Lemma slice_last_split {A} n (l : list A) :
  l = take (length l - n) l ++ Js.slice_last n l.
Proof. unfold Js.slice_last. symmetry. apply take_drop. Qed.

Lemma keepLast_length n prev line :
  length (keepLast n prev line) = S (min n (length prev)).
Proof.
  unfold keepLast. rewrite List.length_app, slice_last_length. simpl. lia.
Qed.

Lemma keepLast_elem n prev line x :
  x ∈ keepLast n prev line → x ∈ prev ∨ x = line.
Proof.
  unfold keepLast, Js.slice_last. intros [Hin | Hin]%elem_of_app.
  - left. eapply subseteq_drop, Hin.
  - right. by apply list_elem_of_singleton in Hin.
Qed.

Lemma keepLast_last n prev line : last (keepLast n prev line) = Some line.
Proof. unfold keepLast. apply last_snoc. Qed.

Lemma includes_elem (l : list string) (x : string) :
  Js.includes l x = true ↔ x ∈ l.
Proof.
  unfold Js.includes. rewrite existsb_exists. split.
  - intros (y & Hy & ->%String.eqb_eq). by apply list_elem_of_In.
  - intros Hin. exists x. split; [by apply list_elem_of_In | apply String.eqb_refl].
Qed.

Lemma synthetic_nil prev line result :
  (∀ x, x ∈ result → x ∈ prev ∨ x = line) → synthetic prev line result = [].
Proof.
  unfold synthetic. induction result as [| y result IH]; intros Hall; [done |].
  simpl. destruct (Hall y) as [Hy | ->]; [left | |].
  - apply includes_elem in Hy. rewrite Hy. simpl.
    apply IH. intros x Hx. apply Hall. by right.
  - rewrite String.eqb_refl, andb_false_r.
    apply IH. intros x Hx. apply Hall. by right.
Qed.

Lemma appendProgressOf_keepLast c prev line :
  appendProgressOf c prev line = keepLast (retained c) prev line.
Proof. by destruct c. Qed.

End ProgressLog.

(** C9. The streaming update of the scenario orchestrator returns at most
    31 entries, whatever the log held before and whatever line arrives;
    those of the event generator and of file processing return at most 21. *)
Theorem appendProgress_bounded (prev : list string) (line : string) :
  length (ScenarioOrchestrator.appendProgress prev line) ≤ 31 ∧
  length (EventGenerator.appendProgress prev line) ≤ 21 ∧
  length (FileUploader.appendProgress prev line) ≤ 21.
Proof.
  unfold ScenarioOrchestrator.appendProgress, EventGenerator.appendProgress,
    FileUploader.appendProgress.
  rewrite !keepLast_length. lia.
Qed.

(** The bound carries over to a whole chunk, and so to any stream. *)
Lemma ScenarioOrchestrator_onChunk_bounded text s :
  length (ScenarioOrchestrator.progress s) ≤ 31 →
  length (ScenarioOrchestrator.progress (ScenarioOrchestrator.onChunk text s)) ≤ 31.
Proof.
  unfold ScenarioOrchestrator.onChunk. revert s.
  induction (Js.lines text) as [| line ls IH]; intros s Hs; [done |].
  simpl. apply IH. simpl.
  unfold ScenarioOrchestrator.appendProgress. rewrite keepLast_length. lia.
Qed.

Lemma FileUploader_onChunk_bounded text s :
  length (FileUploader.progress s) ≤ 21 →
  length (FileUploader.progress (FileUploader.onChunk text s)) ≤ 21.
Proof.
  unfold FileUploader.onChunk. revert s.
  induction (Js.lines text) as [| line ls IH]; intros s Hs; [done |].
  simpl. apply IH. simpl.
  unfold FileUploader.appendProgress. rewrite keepLast_length. lia.
Qed.

Lemma EventGenerator_onChunk_bounded text progress :
  length progress ≤ 21 → length (EventGenerator.onChunk text progress) ≤ 21.
Proof.
  unfold EventGenerator.onChunk. revert progress.
  induction (Js.lines text) as [| line ls IH]; intros progress Hp; [done |].
  simpl. apply IH. destruct (Js.startsWith _ _); [| done].
  unfold EventGenerator.appendProgress. rewrite keepLast_length. lia.
Qed.

(** C3, refuted as stated. Appending to a full log keeps the last 30
    entries and the new line; no marker is put in place of the entry that
    is lost: the result holds nothing but buffered entries and the line. *)
Lemma appendProgress_inserts_no_marker :
  length fullLog = 31 ∧
  (ScenarioOrchestrator.appendProgress fullLog nextLine
     = replicate 30 "INFO: batch delivered" ++ [nextLine]) ∧
  ("progress truncated" ∉ ScenarioOrchestrator.appendProgress fullLog nextLine) ∧
  length (synthetic fullLog nextLine
            (ScenarioOrchestrator.appendProgress fullLog nextLine)) ≠ 1.
Proof.
  split; [reflexivity |]. split; [reflexivity |]. split.
  - intros Hin. apply keepLast_elem in Hin as [Hin | Hin]; [| discriminate].
    unfold fullLog in Hin. apply elem_of_replicate in Hin as [Heq _]. discriminate.
  - vm_compute. discriminate.
Qed.

(** C3, as the code has it. When a log holds more entries than the loop
    retains, appending a line drops the oldest entries, keeps the last 30
    (scenario run) or 20 (generation, file processing) in order, puts the
    line last, and inserts nothing else. *)
Theorem appendProgress_drops_oldest (c : Stream) (prev : list string) (line : string) :
  retained c < length prev →
  ∃ dropped kept,
    prev = dropped ++ kept ∧
    length dropped = length prev - retained c ∧
    length kept = retained c ∧
    appendProgressOf c prev line = kept ++ [line] ∧
    synthetic prev line (appendProgressOf c prev line) = [].
Proof.
  intros Hfull. rewrite appendProgressOf_keepLast.
  exists (take (length prev - retained c) prev), (Js.slice_last (retained c) prev).
  split; [apply slice_last_split |].
  split; [rewrite length_take; lia |].
  split; [rewrite slice_last_length; lia |].
  split; [reflexivity |].
  apply synthetic_nil. intros x. apply keepLast_elem.
Qed.

Lemma appendProgress_drops_oldest_witness :
  retained ScenarioRun < length fullLog ∧
  ∃ dropped kept,
    fullLog = dropped ++ kept ∧
    length dropped = length fullLog - retained ScenarioRun ∧
    length kept = retained ScenarioRun ∧
    appendProgressOf ScenarioRun fullLog nextLine = kept ++ [nextLine] ∧
    synthetic fullLog nextLine (appendProgressOf ScenarioRun fullLog nextLine) = [].
Proof.
  split; [vm_compute; lia |].
  apply (appendProgress_drops_oldest ScenarioRun fullLog nextLine).
  vm_compute; lia.
Defined.

(** ** Scenario runs *)

Module ScenarioOrchestratorProps.
Import ScenarioOrchestrator.

Lemma reachable_exec w trace : reachable w → reachable (exec w trace).
Proof.
  intros [t ->]. exists (t ++ trace). unfold exec. by rewrite foldl_app.
Qed.

Lemma reachable_ready : reachable ready.
Proof. eexists. reflexivity. Qed.

Lemma reachable_running : reachable running.
Proof. apply reachable_exec, reachable_ready. Qed.

(** *** Stopping *)

Lemma completed_after_stop s :
  progress (completed (stopScenario s))
    = progress s ++ ["Scenario execution stopped by user";
                     "Attack scenario completed successfully!"].
Proof. simpl. by rewrite <- app_assoc. Qed.

(** Whenever an invocation is reading the body, a stop followed by the end
    of the body leaves the completion line last in the log. *)
Lemma stop_never_prevents_completion (w : World) (i : nat) :
  runs w !! i = Some AwaitingRead →
  last (progress (ui (exec w [ClickStop; Deliver i StreamDone])))
    = Some "Attack scenario completed successfully!".
Proof.
  intros Hpc.
  assert (runs (step w ClickStop) = runs w) as Hruns.
  { unfold step, control. by destruct (loading (ui w) || negb (stopRendered (ui w))). }
  change (exec w [ClickStop; Deliver i StreamDone])
    with (step (step w ClickStop) (Deliver i StreamDone)).
  generalize dependent (step w ClickStop). intros w' Hruns.
  unfold step. rewrite Hruns, Hpc. simpl. apply last_snoc.
Qed.

(** C1, at the failing execution. The run is stopped while its body is
    being read; the loop goes on reading, takes a later chunk into the
    log, and at the end of the body reports completion after the line
    that says the run was stopped. *)
Theorem stop_then_completion_reported :
  reachable running ∧
  isRunning (ui running) = true ∧
  let w := exec running
             [Deliver 0 (Chunk ("PHASE 1: Reconnaissance" +:+ nl));
              ClickStop;
              Deliver 0 (Chunk ("PHASE 2: Initial Access" +:+ nl));
              Deliver 0 StreamDone] in
  progress (ui w) = ["Initializing attack scenario...";
                     "PHASE 1: Reconnaissance";
                     "Scenario execution stopped by user";
                     "PHASE 2: Initial Access";
                     "Attack scenario completed successfully!"] ∧
  runs w = [Settled] ∧ isRunning (ui w) = false.
Proof. split; [apply reachable_running |]. by vm_compute. Qed.

(** C4. Cancel is idempotent. The stop control is rendered only while the
    component is marked running and the first stop clears that mark, so
    in every state two clicks on stop in succession leave exactly the
    state, log included, that one click leaves: the second is a no-op.
    Where the control is rendered, the one click is an application of
    [stopScenario], after which the control is gone. *)
Theorem stop_idempotent (w : World) :
  exec w [ClickStop; ClickStop] = exec w [ClickStop] ∧
  (loading (ui w) = false → isRunning (ui w) = true →
   exec w [ClickStop] = with_ui stopScenario w ∧
   stopRendered (ui (exec w [ClickStop])) = false).
Proof.
  change (exec w [ClickStop; ClickStop]) with (step (step w ClickStop) ClickStop).
  change (exec w [ClickStop]) with (step w ClickStop).
  destruct w as [s rs qs]. unfold step, control, stopRendered; simpl. split.
  - destruct (loading s) eqn:Hl; simpl; [by rewrite Hl |].
    destruct (isRunning s) eqn:Hr; simpl; rewrite Hl; simpl; [done |].
    by rewrite Hr.
  - intros -> ->. done.
Qed.

Lemma stop_idempotent_witness :
  reachable running ∧
  loading (ui running) = false ∧ isRunning (ui running) = true ∧
  exec running [ClickStop; ClickStop] = with_ui stopScenario running ∧
  progress (ui (exec running [ClickStop; ClickStop]))
    = ["Initializing attack scenario..."; "Scenario execution stopped by user"].
Proof.
  destruct (stop_idempotent running) as [Htwice Honce].
  destruct (Honce eq_refl eq_refl) as [Hstop _].
  split; [apply reachable_running |]. split; [reflexivity |]. split; [reflexivity |].
  split; [exact (eq_trans Htwice Hstop) |].
  exact (eq_trans (f_equal (λ w, progress (ui w)) (eq_trans Htwice Hstop)) eq_refl).
Defined.

(** *** Trace ids *)

Lemma onChunk_config text s : config (onChunk text s) = config s.
Proof.
  unfold onChunk. revert s.
  induction (Js.lines text) as [| line ls IH]; intros s; [done |].
  simpl. by rewrite IH.
Qed.

Lemma resume_config pc e s : config (resume pc e s).2 = config s.
Proof.
  destruct pc, e as [t | [] st stt [] | text | | t]; simpl; try done.
  apply onChunk_config.
Qed.

(** C5, refuted as stated. The session has tagging enabled and no trace
    id; the launch submits the empty trace id, and the run ends with the
    trace id still empty. *)
Lemma launch_submits_empty_trace_id :
  reachable ready ∧
  tag_trace (config (ui ready)) = true ∧
  trace_id (config (ui ready)) = "" ∧
  requests (step ready ClickLaunch)
    = [GetDestinations;
       PostScenarioRun
         {| scenario_id := "showcase_attack_scenario"; destination_id := "dest-1";
            workers := 10; tag_phase := true; tag_trace := true; trace_id := "";
            generate_noise := false; noise_events_count := 1200 |}] ∧
  trace_id (config (ui (exec ready
              [ClickLaunch; Deliver 0 (Response true 200 "OK" true);
               Deliver 0 (Chunk ("INFO: 200 events sent" +:+ nl));
               Deliver 0 StreamDone]))) = "".
Proof. split; [apply reachable_ready |]. by vm_compute. Qed.

(** C5, as the code has it. A trace id is generated by the Generate
    control alone: [generateTraceId] writes [pulse-<timestamp>-<random>],
    which is never empty. [runScenario] submits the configuration as it
    stands, if it submits at all, and neither it nor any later step of
    the run changes the configuration. *)
Theorem trace_id_generated_on_request_only
    (w : World) (pc : RunPc) (e : RunEvent) (timestamp random : string) :
  (requests (runScenario w) = requests w ∨
   requests (runScenario w) = requests w ++ [PostScenarioRun (config (ui w))]) ∧
  config (ui (runScenario w)) = config (ui w) ∧
  config (resume pc e (ui w)).2 = config (ui w) ∧
  trace_id (config (generateTraceId timestamp random (ui w)))
    = "pulse-" +:+ timestamp +:+ "-" +:+ Js.substring 2 8 random ∧
  trace_id (config (generateTraceId timestamp random (ui w))) ≠ "".
Proof.
  split; [| split; [| split; [apply resume_config | split; [done | done]]]].
  - unfold runScenario.
    destruct (negb _ || negb _); [by left | by right].
  - unfold runScenario. by destruct (negb _ || negb _).
Qed.

(** *** Destinations *)

Lemma offeredDestinations_spec s d :
  d ∈ offeredDestinations s ↔ d ∈ destinations s ∧ dest_type d = hec.
Proof.
  unfold offeredDestinations.
  rewrite list_elem_of_In, filter_In, <- list_elem_of_In, bool_decide_eq_true.
  done.
Qed.

(** C6, refuted as stated: the syslog destination of the session is
    configured but is not among the options of the destination select,
    and selecting its id has no effect. *)
Lemma syslog_destination_not_selectable :
  reachable ready ∧
  collector ∈ destinations (ui ready) ∧
  dest_type collector = syslog ∧
  (collector ∉ offeredDestinations (ui ready)) ∧
  (dest_id collector ∉ (destinationOptions (ui ready)).*1) ∧
  step ready (ChangeDestination (dest_id collector)) = ready.
Proof.
  split; [apply reachable_ready |].
  split; [vm_compute; constructor; constructor |].
  split; [done |].
  split; [rewrite offeredDestinations_spec; by intros [_ ?] |].
  split; [| by vm_compute].
  vm_compute. intros Hin.
  repeat (apply elem_of_cons in Hin as [Hin | Hin]; [discriminate |]).
  by apply elem_of_nil in Hin.
Qed.

(** C6, as the code has it. The destinations offered for a scenario run
    are the configured destinations of kind HEC, in their order: every
    HEC destination is an option of the select, under its id, and no
    syslog destination is offered. *)
Theorem hec_destinations_selectable (s : State) (d : Destination) :
  (d ∈ offeredDestinations s ↔ d ∈ destinations s ∧ dest_type d = hec) ∧
  (d ∈ destinations s → dest_type d = hec →
     (dest_id d, dest_name d +:+ " (SDL HEC)") ∈ destinationOptions s) ∧
  (dest_type d = syslog → d ∉ offeredDestinations s).
Proof.
  split; [apply offeredDestinations_spec |]. split.
  - intros Hd Hk. unfold destinationOptions. apply elem_of_cons. right.
    apply (list_elem_of_fmap_2 (λ d, (dest_id d, dest_name d +:+ " (SDL HEC)"))).
    by apply offeredDestinations_spec.
  - intros Hk [_ Hhec]%offeredDestinations_spec. congruence.
Qed.

Lemma hec_destinations_selectable_witness :
  sdl ∈ offeredDestinations (ui ready) ∧
  (dest_id sdl, dest_name sdl +:+ " (SDL HEC)") ∈ destinationOptions (ui ready).
Proof.
  destruct (hec_destinations_selectable (ui ready) sdl) as (Hoff & Hopt & _).
  assert (Hin : sdl ∈ destinations (ui ready)) by (vm_compute; constructor).
  split.
  - apply Hoff. split; [exact Hin | reflexivity].
  - apply Hopt; [exact Hin | reflexivity].
Defined.

(** *** Workers *)

(** C7, at the failing inputs. The values 100 and -5 typed into the
    workers input reach the configuration as they are: the handler
    replaces only [NaN] and 0 by 1 and compares with neither bound of
    the input. *)
Theorem workers_escape_bounds :
  let many := exec ready [ChangeWorkers "100"] in
  let few := exec ready [ChangeWorkers "-5"] in
  (reachable many ∧ workers (config (ui many)) = 100 ∧
     workers_max < workers (config (ui many)))%Z ∧
  (reachable few ∧ workers (config (ui few)) = -5 ∧
     workers (config (ui few)) < workers_min)%Z ∧
  requests (exec many [ClickLaunch])
    = [GetDestinations;
       PostScenarioRun
         {| scenario_id := "showcase_attack_scenario"; destination_id := "dest-1";
            workers := 100; tag_phase := true; tag_trace := true; trace_id := "";
            generate_noise := false; noise_events_count := 1200 |}].
Proof.
  repeat split; try (apply reachable_exec, reachable_ready); by vm_compute.
Qed.

(** Any integer but 0 read from the input is stored as it is. *)
Lemma workers_onChange_stores value v s :
  Js.parseInt value = Some v → v ≠ 0%Z →
  workers (config (workers_onChange value s)) = v.
Proof.
  intros Hparse Hv. simpl. rewrite Hparse. simpl.
  by destruct (Z.eqb_spec v 0).
Qed.

(** What the handler does guarantee: the value is never 0. *)
Lemma workers_onChange_nonzero value s :
  workers (config (workers_onChange value s)) ≠ 0%Z.
Proof.
  simpl. unfold Js.or_number.
  destruct (Js.parseInt value) as [v |]; [| done].
  destruct (Z.eqb_spec v 0); [done | done].
Qed.

End ScenarioOrchestratorProps.

(** ** Upload intake and file processing *)

Module FileUploaderProps.
Import FileUploader.

Example fileExt_examples :
  fileExt malware = ".exe" ∧ fileExt events = ".json" ∧ fileExt archive = ".gz" ∧
  fileExt {| file_name := "README"; file_size := 10 |} = ".readme".
Proof. repeat split; reflexivity. Qed.

(** For a name without a dot, [split] returns the name itself, so the
    extension computed is the whole name behind a dot. *)
Example fileExt_without_dot : fileExt dotless = ".csv".
Proof. reflexivity. Qed.

Lemma rejection_messages :
  "Invalid file type. Allowed: " +:+ Js.join ", " allowedTypes
    = "Invalid file type. Allowed: .csv, .json, .txt, .log, .gz".
Proof. reflexivity. Qed.

(** C10, at the failing input. The file named [csv] has no dot in its
    name and so no extension at all. The type check takes the whole name
    for the extension, finds [.csv] allowed, and the upload is requested:
    in every world the request is issued, an invocation is left pending
    and the component is marked uploading. *)
Theorem handleFiles_uploads_name_without_dot (rest : list File) (w : World) :
  ("."%char ∉ String.list_ascii_of_string (file_name dotless)) ∧
  fileExt dotless = ".csv" ∧
  requests (handleFiles (dotless :: rest) w) = requests w ++ [PostUpload dotless] ∧
  tasks (handleFiles (dotless :: rest) w) = tasks w ++ [UploadAwaitingResponse] ∧
  uploading (ui (handleFiles (dotless :: rest) w)) = true ∧
  error (ui (handleFiles (dotless :: rest) w)) = "".
Proof.
  split; [| by repeat split].
  vm_compute. intros Hin.
  repeat (apply elem_of_cons in Hin as [Hin | Hin]; [discriminate |]).
  by apply elem_of_nil in Hin.
Qed.

(** What the two checks do guarantee, for the extension as [fileExt]
    computes it: a file for which it is not allowed, or whose size exceeds
    50 MB, only sets the error message, with no request issued, no upload
    pending and every other cell as before; the upload is requested
    exactly for a first file that passes both checks. *)
Lemma handleFiles_rejects_without_effect
    (file : File) (rest : list File) (w : World) :
  let w' := handleFiles (file :: rest) w in
  (fileExt file ∉ allowedTypes ∨ (50 * 1024 * 1024 < file_size file)%Z →
     (∃ msg, msg ≠ "" ∧ w' = with_ui (setError msg) w) ∧
     requests w' = requests w ∧ tasks w' = tasks w ∧
     files (ui w') = files (ui w) ∧ uploading (ui w') = uploading (ui w)) ∧
  (requests w' ≠ requests w →
     fileExt file ∈ allowedTypes ∧ (file_size file ≤ 50 * 1024 * 1024)%Z) ∧
  (fileExt file ∈ allowedTypes → (file_size file ≤ 50 * 1024 * 1024)%Z →
     requests w' = requests w ++ [PostUpload file] ∧ uploading (ui w') = true).
Proof.
  intros w'. subst w'. unfold handleFiles.
  destruct (Js.includes allowedTypes (fileExt file)) eqn:Hinc; simpl.
  - apply includes_elem in Hinc.
    change maxFileSize with (50 * 1024 * 1024)%Z.
    destruct (Z.ltb_spec (50 * 1024 * 1024) (file_size file)) as [Hbig | Hok].
    + split; [| split].
      * intros _. split; [| done]. by eexists; split; [| reflexivity].
      * intros Hne. by destruct Hne.
      * intros _ Hle. lia.
    + split; [| split].
      * intros [Hext | Hbig]; [done | lia].
      * done.
      * done.
  - assert (fileExt file ∉ allowedTypes) as Hout.
    { intros Hin%includes_elem. congruence. }
    split; [| split].
    + intros _. split; [| done]. by eexists; split; [| reflexivity].
    + intros Hne. by destruct Hne.
    + done.
Qed.

Lemma handleFiles_rejects_without_effect_witness :
  handleFiles [malware] initialWorld
    = with_ui (setError "Invalid file type. Allowed: .csv, .json, .txt, .log, .gz")
        initialWorld ∧
  requests (handleFiles [archive] initialWorld) = requests initialWorld ∧
  requests (handleFiles [events] initialWorld) = [PostUpload events].
Proof.
  split; [reflexivity |]. split.
  - apply (handleFiles_rejects_without_effect archive [] initialWorld).
    right. vm_compute. reflexivity.
  - apply (handleFiles_rejects_without_effect events [] initialWorld).
    + vm_compute. do 1 constructor. constructor.
    + vm_compute. discriminate.
Defined.

End FileUploaderProps.

(** C2. With an empty scenario id or an empty destination id,
    [runScenario] sets the validation message and does nothing else: no
    request is issued, no invocation is left pending, the run is not
    marked running, and the state without its error cell is the state
    before. [processFile] does the same with an empty destination or an
    empty source type. *)
Theorem start_rejects_missing_selection
    (w : ScenarioOrchestrator.World) (fileId : string) (fw : FileUploader.World) :
  (ScenarioOrchestrator.scenario_id
     (ScenarioOrchestrator.config (ScenarioOrchestrator.ui w)) = "" ∨
   ScenarioOrchestrator.destination_id
     (ScenarioOrchestrator.config (ScenarioOrchestrator.ui w)) = "" →
   let w' := ScenarioOrchestrator.runScenario w in
   w' = ScenarioOrchestrator.with_ui
          (ScenarioOrchestrator.setError "Please select both scenario and destination") w ∧
   ScenarioOrchestrator.requests w' = ScenarioOrchestrator.requests w ∧
   ScenarioOrchestrator.runs w' = ScenarioOrchestrator.runs w ∧
   ScenarioOrchestrator.isRunning (ScenarioOrchestrator.ui w')
     = ScenarioOrchestrator.isRunning (ScenarioOrchestrator.ui w) ∧
   ScenarioOrchestrator.setError
       (ScenarioOrchestrator.error (ScenarioOrchestrator.ui w))
       (ScenarioOrchestrator.ui w')
     = ScenarioOrchestrator.ui w) ∧
  (FileUploader.destination
     (FileUploader.processConfig (FileUploader.ui fw)) = "" ∨
   FileUploader.sourcetype
     (FileUploader.processConfig (FileUploader.ui fw)) = "" →
   let fw' := FileUploader.processFile fileId fw in
   fw' = FileUploader.with_ui
           (FileUploader.setError "Please select destination and enter sourcetype") fw ∧
   FileUploader.requests fw' = FileUploader.requests fw ∧
   FileUploader.tasks fw' = FileUploader.tasks fw ∧
   FileUploader.processing (FileUploader.ui fw')
     = FileUploader.processing (FileUploader.ui fw) ∧
   FileUploader.setError
       (FileUploader.error (FileUploader.ui fw)) (FileUploader.ui fw')
     = FileUploader.ui fw).
Proof.
  split.
  - intros Hempty w'. subst w'. unfold ScenarioOrchestrator.runScenario.
    assert (negb (Js.truthy (ScenarioOrchestrator.scenario_id
                     (ScenarioOrchestrator.config (ScenarioOrchestrator.ui w))))
            || negb (Js.truthy (ScenarioOrchestrator.destination_id
                     (ScenarioOrchestrator.config (ScenarioOrchestrator.ui w))))
            = true) as ->.
    { destruct Hempty as [-> | ->]; [done | apply orb_true_r]. }
    destruct w as [[] ? ?]. by repeat split.
  - intros Hempty fw'. subst fw'. unfold FileUploader.processFile.
    assert (negb (Js.truthy (FileUploader.destination
                     (FileUploader.processConfig (FileUploader.ui fw))))
            || negb (Js.truthy (FileUploader.sourcetype
                     (FileUploader.processConfig (FileUploader.ui fw))))
            = true) as ->.
    { destruct Hempty as [-> | ->]; [done | apply orb_true_r]. }
    destruct fw as [[] ? ?]. by repeat split.
Qed.

Lemma start_rejects_missing_selection_witness :
  ScenarioOrchestrator.runScenario ScenarioOrchestrator.initialWorld
    = ScenarioOrchestrator.with_ui
        (ScenarioOrchestrator.setError "Please select both scenario and destination")
        ScenarioOrchestrator.initialWorld ∧
  FileUploader.requests
      (FileUploader.processFile "upload-1" FileUploader.initialWorld)
    = FileUploader.requests FileUploader.initialWorld.
Proof.
  split.
  - apply (start_rejects_missing_selection
             ScenarioOrchestrator.initialWorld "upload-1" FileUploader.initialWorld).
    left. reflexivity.
  - apply (start_rejects_missing_selection
             ScenarioOrchestrator.initialWorld "upload-1" FileUploader.initialWorld).
    left. reflexivity.
Defined.

(** ** Destinations *)

Module DestinationManagerProps.
Import DestinationManager.

Example payload_hec :
  payload {| name := "SDL"; type := hec; url := "https://sdl.example/raw";
             ip := "10.0.0.1"; port := "514"; protocol := UDP |}
    = <[ "name" := Str "SDL" ]>
        (<[ "type" := Str "hec" ]> {[ "url" := Str "https://sdl.example/raw" ]}).
Proof. by vm_compute. Qed.

(** C8. The payload of the creation request says [hec] or [syslog] and
    nothing else, and besides [name] and [type] it has exactly the fields
    of that kind: [url] for HEC; [ip], [port] and [protocol] for syslog,
    the protocol being [TCP] or [UDP]. *)
Theorem payload_kind_and_parameters (formData : FormData) :
  ∃ body, handleSubmit formData = PostDestination body ∧
  ((body !! "type" = Some (Str "hec") ∧
    dom body = ({[ "name"; "type"; "url" ]} : gset string) ∧
    body !! "name" = Some (Str (name formData)) ∧
    body !! "url" = Some (Str (url formData)))
   ∨
   (body !! "type" = Some (Str "syslog") ∧
    dom body = ({[ "name"; "type"; "ip"; "port"; "protocol" ]} : gset string) ∧
    body !! "name" = Some (Str (name formData)) ∧
    body !! "ip" = Some (Str (ip formData)) ∧
    body !! "port" = Some (Num (Js.parseInt (port formData))) ∧
    (body !! "protocol" = Some (Str "TCP") ∨ body !! "protocol" = Some (Str "UDP")))).
Proof.
  exists (payload formData). split; [reflexivity |].
  unfold payload. destruct (type formData).
  - left. split; [by vm_compute |]. split; [| split; by vm_compute].
    rewrite dom_union_L, dom_insert_L, !dom_singleton_L. set_solver.
  - right. split; [by vm_compute |]. split; [| repeat split; try by vm_compute].
    + rewrite dom_union_L, !dom_insert_L, !dom_singleton_L. set_solver.
    + destruct (protocol formData); [left | right]; by vm_compute.
Qed.

End DestinationManagerProps.

(** * Further properties of the components *)

(** ** Chunks and lines *)

Section Chunks.

Implicit Types (s a b text : string) (p prev : list string) (sep : ascii).

Lemma split_nonempty sep s : Js.split sep s ≠ [].
Proof.
  destruct s as [| c rest]; simpl; [done |].
  destruct (Ascii.eqb c sep); [done |]. by destruct (Js.split sep rest).
Qed.

Lemma split_no_sep sep s seg :
  seg ∈ Js.split sep s → sep ∉ String.list_ascii_of_string seg.
Proof.
  revert seg. induction s as [| c rest IH]; intros seg; simpl.
  - intros ->%list_elem_of_singleton. simpl. apply not_elem_of_nil.
  - destruct (Ascii.eqb_spec c sep) as [-> | Hne].
    + intros [-> | Hin]%elem_of_cons; [simpl; apply not_elem_of_nil | by apply IH].
    + pose proof (split_nonempty sep rest) as Hrest.
      destruct (Js.split sep rest) as [| seg0 segs]; [done |].
      intros [-> | Hin]%elem_of_cons.
      * simpl. intros [<- | Hin]%elem_of_cons; [done |].
        by apply (IH seg0); [left |].
      * apply IH. by right.
Qed.

Lemma split_app sep a b :
  Js.split sep (a +:+ String sep b) = Js.split sep a ++ Js.split sep b.
Proof.
  induction a as [| c rest IH]; simpl.
  - by rewrite Ascii.eqb_refl.
  - destruct (Ascii.eqb c sep); [by rewrite IH |].
    rewrite IH. pose proof (split_nonempty sep rest) as Hrest.
    by destruct (Js.split sep rest).
Qed.

Lemma lines_app a b :
  Js.lines (a +:+ String "010" b) = Js.lines a ++ Js.lines b.
Proof. unfold Js.lines. by rewrite split_app, List.filter_app. Qed.

Lemma lines_elem text line :
  line ∈ Js.lines text →
  Js.trim line ≠ "" ∧ "010"%char ∉ String.list_ascii_of_string line.
Proof.
  unfold Js.lines. rewrite list_elem_of_In, filter_In, <- list_elem_of_In.
  intros [Hin Htrim]. split; [| by eapply split_no_sep].
  unfold Js.truthy in Htrim. intros Heq. by rewrite Heq in Htrim.
Qed.

Lemma slice_last_snoc {A} n (l : list A) x :
  Js.slice_last (S n) (l ++ [x]) = Js.slice_last n l ++ [x].
Proof.
  unfold Js.slice_last. rewrite List.length_app. simpl.
  replace (length l + 1 - S n) with (length l - n) by lia.
  rewrite drop_app_le by lia. done.
Qed.

Lemma slice_last_absorb {A} n (q r : list A) :
  Js.slice_last n (Js.slice_last n q ++ r) = Js.slice_last n (q ++ r).
Proof.
  unfold Js.slice_last.
  rewrite !List.length_app, length_drop.
  assert (q ++ r = take (length q - n) q ++ (drop (length q - n) q ++ r)) as Heq.
  { by rewrite app_assoc, take_drop. }
  rewrite Heq.
  rewrite (drop_app_ge (take _ q)); rewrite length_take; [| lia].
  f_equal. lia.
Qed.

Lemma keepLast_slice n prev line :
  keepLast n prev line = Js.slice_last (S n) (prev ++ [line]).
Proof. unfold keepLast. by rewrite slice_last_snoc. Qed.

Lemma foldl_keepLast n p ls :
  ls ≠ [] → foldl (keepLast n) p ls = Js.slice_last (S n) (p ++ ls).
Proof.
  destruct ls as [| x ls]; [done |]. intros _. simpl.
  revert p x. induction ls as [| y ls IH]; intros p x; simpl.
  - apply keepLast_slice.
  - rewrite IH, keepLast_slice, slice_last_absorb.
    by rewrite <- app_assoc.
Qed.

Lemma slice_last_subseteq {A} n (l : list A) : Js.slice_last n l ⊆ l.
Proof. apply subseteq_drop. Qed.

End Chunks.

Lemma ScenarioOrchestrator_onChunk_progress text s :
  ScenarioOrchestrator.progress (ScenarioOrchestrator.onChunk text s)
    = foldl (keepLast 30) (ScenarioOrchestrator.progress s) (Js.lines text).
Proof.
  unfold ScenarioOrchestrator.onChunk. revert s.
  induction (Js.lines text) as [| line ls IH]; intros s; [done |].
  simpl. by rewrite IH.
Qed.

Lemma FileUploader_onChunk_progress text s :
  FileUploader.progress (FileUploader.onChunk text s)
    = foldl (keepLast 20) (FileUploader.progress s) (Js.lines text).
Proof.
  unfold FileUploader.onChunk. revert s.
  induction (Js.lines text) as [| line ls IH]; intros s; [done |].
  simpl. by rewrite IH.
Qed.

Lemma EventGenerator_onChunk_dataLines text p :
  EventGenerator.onChunk text p
    = foldl (keepLast 20) p (EventGenerator.dataLines text).
Proof.
  unfold EventGenerator.onChunk, EventGenerator.dataLines. revert p.
  induction (Js.lines text) as [| line ls IH]; intros p; [done |].
  simpl. destruct (Js.startsWith "data: " line); simpl; by rewrite IH.
Qed.

(** X1. A chunk with at least one non-blank line leaves in the log the
    last 31 (scenario run) or 21 (file processing) entries of the old log
    followed by the non-blank lines of the chunk, in order. *)
Theorem onChunk_closed_form
    (text : string) (s : ScenarioOrchestrator.State) (fs : FileUploader.State) :
  Js.lines text ≠ [] →
  ScenarioOrchestrator.progress (ScenarioOrchestrator.onChunk text s)
    = Js.slice_last 31 (ScenarioOrchestrator.progress s ++ Js.lines text) ∧
  FileUploader.progress (FileUploader.onChunk text fs)
    = Js.slice_last 21 (FileUploader.progress fs ++ Js.lines text).
Proof.
  intros Hne.
  rewrite ScenarioOrchestrator_onChunk_progress, FileUploader_onChunk_progress.
  by rewrite !foldl_keepLast.
Qed.

Lemma onChunk_closed_form_witness :
  ScenarioOrchestrator.progress
      (ScenarioOrchestrator.onChunk ("PHASE 1" +:+ ScenarioOrchestrator.nl +:+ "PHASE 2")
         (ScenarioOrchestrator.ui ScenarioOrchestrator.running))
    = ["Initializing attack scenario..."; "PHASE 1"; "PHASE 2"].
Proof.
  refine (eq_trans
            (proj1 (onChunk_closed_form _ (ScenarioOrchestrator.ui ScenarioOrchestrator.running)
                      FileUploader.initialState _)) _).
  - vm_compute. discriminate.
  - reflexivity.
Defined.

(** X2. Cutting a chunk at a line feed changes nothing: the log after the
    chunk [a\nb] is the log after the chunk [a] followed by the chunk [b],
    in each of the three loops. *)
Theorem onChunk_cut_at_line_feed
    (a b : string) (s : ScenarioOrchestrator.State) (fs : FileUploader.State)
    (p : list string) :
  ScenarioOrchestrator.onChunk (a +:+ String "010" b) s
    = ScenarioOrchestrator.onChunk b (ScenarioOrchestrator.onChunk a s) ∧
  FileUploader.onChunk (a +:+ String "010" b) fs
    = FileUploader.onChunk b (FileUploader.onChunk a fs) ∧
  EventGenerator.onChunk (a +:+ String "010" b) p
    = EventGenerator.onChunk b (EventGenerator.onChunk a p).
Proof.
  unfold ScenarioOrchestrator.onChunk, FileUploader.onChunk, EventGenerator.onChunk.
  by rewrite lines_app, !foldl_app.
Qed.

(** X3. Whatever a chunk adds to the log of a scenario run or of file
    processing is one of its lines, is not blank and holds no line feed;
    every other entry was in the log before. *)
Theorem onChunk_entries
    (text x : string) (s : ScenarioOrchestrator.State) (fs : FileUploader.State) :
  (x ∈ ScenarioOrchestrator.progress (ScenarioOrchestrator.onChunk text s) →
   x ∈ ScenarioOrchestrator.progress s ∨
   (x ∈ Js.lines text ∧ Js.trim x ≠ "" ∧
    "010"%char ∉ String.list_ascii_of_string x)) ∧
  (x ∈ FileUploader.progress (FileUploader.onChunk text fs) →
   x ∈ FileUploader.progress fs ∨
   (x ∈ Js.lines text ∧ Js.trim x ≠ "" ∧
    "010"%char ∉ String.list_ascii_of_string x)).
Proof.
  rewrite ScenarioOrchestrator_onChunk_progress, FileUploader_onChunk_progress.
  destruct (Js.lines text) as [| l ls] eqn:Hlines; [by split; left |].
  rewrite !foldl_keepLast by done. rewrite <- Hlines.
  split; intros [Hin | Hin]%slice_last_subseteq%elem_of_app; auto;
    right; (split; [done | by eapply lines_elem]).
Qed.

Lemma onChunk_entries_witness :
  "PHASE 2" ∈ ScenarioOrchestrator.progress
                (ScenarioOrchestrator.onChunk
                   ("PHASE 1" +:+ ScenarioOrchestrator.nl +:+ "PHASE 2")
                   (ScenarioOrchestrator.ui ScenarioOrchestrator.running)) ∧
  ("PHASE 2" ∈ ScenarioOrchestrator.progress
                 (ScenarioOrchestrator.ui ScenarioOrchestrator.running) ∨
   ("PHASE 2" ∈ Js.lines ("PHASE 1" +:+ ScenarioOrchestrator.nl +:+ "PHASE 2") ∧
    Js.trim "PHASE 2" ≠ "" ∧ "010"%char ∉ String.list_ascii_of_string "PHASE 2")).
Proof.
  assert ("PHASE 2" ∈ ScenarioOrchestrator.progress
            (ScenarioOrchestrator.onChunk
               ("PHASE 1" +:+ ScenarioOrchestrator.nl +:+ "PHASE 2")
               (ScenarioOrchestrator.ui ScenarioOrchestrator.running))) as Hin.
  { vm_compute. do 2 constructor. constructor. }
  split; [exact Hin |].
  exact (proj1 (onChunk_entries _ "PHASE 2"
                  (ScenarioOrchestrator.ui ScenarioOrchestrator.running)
                  FileUploader.initialState) Hin).
Defined.

Lemma prefix_substring (p s : string) :
  String.prefix p s = true →
  p +:+ String.substring (String.length p) (String.length s - String.length p) s = s.
Proof.
  revert s. induction p as [| c p IH]; intros s.
  - intros _. change ("" +:+ ?x) with x. simpl. rewrite Nat.sub_0_r.
    induction s as [| d s IHs]; simpl; [done |]. by rewrite IHs.
  - destruct s as [| d s]; [done |]. simpl.
    destruct (ascii_dec c d) as [-> | Hne]; [| done].
    intros Hp. change (String d p +:+ ?x) with (String d (p +:+ x)).
    by rewrite IH.
Qed.

(** X4. The log of the event generator takes from a chunk the lines that
    start with [data: ], each without that prefix and in order, and no
    other line: a chunk without such a line leaves the log as it is,
    otherwise the last 21 entries of the old log followed by these lines
    remain. Putting the prefix back before an entry taken gives the line
    received. *)
Theorem EventGenerator_onChunk_data_lines (text : string) (p : list string) :
  EventGenerator.onChunk text p
    = match EventGenerator.dataLines text with
      | [] => p
      | _ :: _ => Js.slice_last 21 (p ++ EventGenerator.dataLines text)
      end ∧
  ∀ x, x ∈ EventGenerator.dataLines text →
       "data: " +:+ x ∈ Js.lines text.
Proof.
  split.
  - rewrite EventGenerator_onChunk_dataLines.
    destruct (EventGenerator.dataLines text) as [| d ds] eqn:Hd; [done |].
    by rewrite foldl_keepLast.
  - intros x. unfold EventGenerator.dataLines.
    intros (l & -> & Hl)%(list_elem_of_fmap_1 (Js.substring_from 6)).
    apply list_elem_of_In, filter_In in Hl as [Hl Hpre].
    unfold Js.startsWith in Hpre. apply prefix_substring in Hpre.
    unfold Js.substring_from. simpl String.length in Hpre.
    rewrite Hpre. by apply list_elem_of_In.
Qed.

Lemma EventGenerator_onChunk_data_lines_witness :
  "data: " +:+ "sent 10 events" ∈ Js.lines ("data: sent 10 events" +:+ String "010" "ping").
Proof.
  apply (EventGenerator_onChunk_data_lines
           ("data: sent 10 events" +:+ String "010" "ping") []).
  vm_compute. constructor.
Defined.

(** ** Scenario runs over whole sessions *)

Module ScenarioOrchestratorSessions.
Import ScenarioOrchestrator.

Lemma reachable_ind (P : World → Prop) :
  P initialWorld → (∀ w a, reachable w → P w → P (step w a)) →
  ∀ w, reachable w → P w.
Proof.
  intros Hinit Hstep w [trace ->].
  induction trace as [| a trace IH] using rev_ind; [done |].
  unfold exec. rewrite foldl_app. simpl.
  apply Hstep; [by eexists | apply IH].
Qed.

Lemma control_cases hidden f w :
  control hidden f w = w ∨
  (loading (ui w) = false ∧ hidden = false ∧ control hidden f w = f w).
Proof.
  unfold control. destruct (loading (ui w)), hidden; simpl; auto.
Qed.

Lemma truthy_nonempty s : Js.truthy s = true ↔ s ≠ "".
Proof.
  unfold Js.truthy. destruct (String.eqb_spec s ""); simpl; split; congruence.
Qed.

Lemma runScenario_launched w :
  launchDisabled (ui w) = false →
  runScenario w
    = {| ui := setError ""
                 (setProgress (λ _, ["Initializing attack scenario..."])
                    (setIsRunning true (ui w)));
         runs := runs w ++ [AwaitingResponse];
         requests := requests w ++ [PostScenarioRun (config (ui w))] |} ∧
  isRunning (ui w) = false ∧
  scenario_id (config (ui w)) ≠ "" ∧ destination_id (config (ui w)) ≠ "".
Proof.
  unfold launchDisabled, runScenario.
  intros [[Hrun Hs]%orb_false_elim Hd]%orb_false_elim.
  rewrite Hs, Hd. simpl.
  apply negb_false_iff, truthy_nonempty in Hs, Hd.
  by repeat split.
Qed.

(** What a session keeps true of the configuration and of the requests. *)
Lemma session_invariant w :
  reachable w →
  scenario_id (config (ui w)) ∈ "" :: scenarioIds ∧
  workers (config (ui w)) ≠ 0%Z ∧
  (∀ body, PostScenarioRun body ∈ requests w →
     scenario_id body ∈ scenarioIds ∧ destination_id body ≠ "" ∧
     workers body ≠ 0%Z) ∧
  length (requests w) = S (length (runs w)).
Proof.
  revert w. apply reachable_ind.
  - split; [by left |]. split; [done |]. split; [| done].
    intros body [Heq | Hin]%elem_of_cons; [done | by apply elem_of_nil in Hin].
  - intros w a _ (Hsc & Hwk & Hreq & Hlen).
    destruct a; unfold step;
      try (match goal with
           | |- context [control ?h ?f w] =>
               destruct (control_cases h f w) as [-> | (_ & Hguard & ->)]; [done |]
           end).
    + (* launch *)
      destruct (runScenario_launched w Hguard) as (-> & _ & Hs & Hd). simpl.
      split; [done |]. split; [done |]. split.
      * intros body [Hin | Heq%list_elem_of_singleton]%elem_of_app;
          [by apply Hreq |].
        injection Heq as ->. split; [| done].
        apply elem_of_cons in Hsc as [Hsc | Hsc]; [done | done].
      * rewrite !List.length_app. simpl. lia.
    + by repeat (simpl; try destruct result).
    + by repeat (simpl; try destruct result).
    + by repeat (simpl; try destruct result).
    + (* scenario *)
      simpl. split; [| done].
      apply orb_false_elim in Hguard as [_ Hv].
      by apply negb_false_iff, bool_decide_eq_true in Hv.
    + by repeat (simpl; try destruct result).
    + (* workers *)
      simpl. split; [done |]. split; [| done].
      apply (ScenarioOrchestratorProps.workers_onChange_nonzero value (ui w)).
    + by repeat (simpl; try destruct result).
    + by repeat (simpl; try destruct result).
    + by repeat (simpl; try destruct result).
    + by repeat (simpl; try destruct result).
    + by repeat (simpl; try destruct result).
    + by repeat (simpl; try destruct result).
    + (* deliver *)
      destruct (runs w !! i) as [pc |] eqn:Hpc; [| done].
      pose proof (ScenarioOrchestratorProps.resume_config pc e (ui w)) as Hcfg.
      destruct (resume pc e (ui w)) as [pc' s']. simpl in *.
      rewrite Hcfg, length_insert. done.
Qed.

(** X5. In every session, each scenario-run request that has been issued
    names a scenario of the catalogue and a destination, asks for a number
    of workers other than 0, and belongs to exactly one invocation of
    [runScenario]. *)
Theorem requests_well_formed (w : World) :
  reachable w →
  (∀ body, PostScenarioRun body ∈ requests w →
     scenario_id body ∈ scenarioIds ∧ destination_id body ≠ "" ∧
     workers body ≠ 0%Z) ∧
  length (requests w) = S (length (runs w)).
Proof. intros Hw. by destruct (session_invariant w Hw) as (_ & _ & ? & ?). Qed.

Lemma requests_well_formed_witness :
  reachable running ∧ length (requests running) = S (length (runs running)).
Proof.
  split; [apply ScenarioOrchestratorProps.reachable_running |].
  apply (requests_well_formed running).
  apply ScenarioOrchestratorProps.reachable_running.
Defined.

(** X6. While the component is marked running no step changes the
    configuration: every control of the form is disabled, and neither a
    stop nor anything delivered to an invocation writes to it. *)
Theorem config_frozen_while_running (w : World) (a : Action) :
  isRunning (ui w) = true → config (ui (step w a)) = config (ui w).
Proof.
  intros Hrun.
  destruct a; unfold step, control, launchDisabled, stopRendered, clearDisabled;
    rewrite ?Hrun; simpl; rewrite ?orb_true_r; try done;
    try (by destruct (loading (ui w))); try (by destruct result).
  destruct (runs w !! i) as [pc |]; [| done].
  pose proof (ScenarioOrchestratorProps.resume_config pc e (ui w)) as Hcfg.
  by destruct (resume pc e (ui w)).
Qed.

Lemma config_frozen_while_running_witness :
  config (ui (step running (ChangeWorkers "3"))) = config (ui running).
Proof. apply (config_frozen_while_running running (ChangeWorkers "3")). reflexivity. Defined.

End ScenarioOrchestratorSessions.

Module ScenarioOrchestratorLog.
Import ScenarioOrchestrator.

Lemma pending_app rs rs' : pending (rs ++ rs') = pending rs + pending rs'.
Proof. unfold pending. by rewrite List.filter_app, List.length_app. Qed.

Lemma pending_le rs : pending rs ≤ length rs.
Proof. unfold pending. apply List.filter_length_le. Qed.

Lemma pending_insert rs i pc pc' :
  rs !! i = Some pc →
  pending (<[i := pc']> rs) + pending [pc] = pending rs + pending [pc'].
Proof.
  revert i. induction rs as [| r rs IH]; intros i Hi; [done |].
  destruct i as [| i]; simpl in Hi.
  - injection Hi as ->. simpl.
    change (pc' :: rs) with ([pc'] ++ rs). change (pc :: rs) with ([pc] ++ rs).
    rewrite !pending_app. lia.
  - simpl. change (r :: <[i:=pc']> rs) with ([r] ++ <[i:=pc']> rs).
    change (r :: rs) with ([r] ++ rs). rewrite !pending_app.
    specialize (IH i Hi). lia.
Qed.

Lemma onChunk_isRunning text s : isRunning (onChunk text s) = isRunning s.
Proof.
  unfold onChunk. revert s.
  induction (Js.lines text) as [| line ls IH]; intros s; [done |].
  simpl. by rewrite IH.
Qed.

Lemma onChunk_length text s :
  length (progress (onChunk text s)) ≤ max (length (progress s)) 31.
Proof.
  rewrite ScenarioOrchestrator_onChunk_progress.
  destruct (Js.lines text) as [| l ls] eqn:Hl; [simpl; lia |].
  rewrite foldl_keepLast by done. rewrite slice_last_length. lia.
Qed.

(** Every log entry is paid for: by the 31 entries a stream may hold, by
    the stop still to come, or by an invocation still to settle. *)
Lemma log_invariant w :
  reachable w →
  length (progress (ui w)) + pending (runs w) + (if isRunning (ui w) then 1 else 0)
    ≤ 32 + length (runs w).
Proof.
  revert w. apply ScenarioOrchestratorSessions.reachable_ind; [simpl; lia |].
  intros w a _ Hinv. pose proof (pending_le (runs w)) as Hle.
  destruct a; unfold step;
    try (match goal with
         | |- context [control ?h ?f w] =>
             destruct (ScenarioOrchestratorSessions.control_cases h f w)
               as [-> | (_ & Hguard & ->)]; [done |]
         end);
    try (simpl; destruct (isRunning (ui w)); simpl in *; lia).
  - (* launch *)
    destruct (ScenarioOrchestratorSessions.runScenario_launched w Hguard)
      as (-> & _ & _ & _).
    simpl. rewrite pending_app, List.length_app. simpl.
    change (pending [AwaitingResponse]) with 1. lia.
  - (* stop *)
    apply negb_false_iff in Hguard. unfold stopRendered in Hguard.
    simpl. rewrite Hguard in Hinv. rewrite List.length_app. simpl. lia.
  - (* the list of destinations *)
    destruct result; simpl; destruct (isRunning (ui w)); simpl in *; lia.
  - (* delivery *)
    destruct (runs w !! i) as [pc |] eqn:Hpc; [| done].
    pose proof (pending_insert (runs w) i pc) as Hins.
    destruct pc, e as [t | [] st stt [] | text | | t]; simpl;
      try (rewrite list_insert_id by done; done);
      rewrite length_insert;
      try (specialize (Hins Settled Hpc); rewrite List.length_app;
           change (pending [Settled]) with 0 in Hins;
           change (pending [AwaitingResponse]) with 1 in Hins;
           change (pending [AwaitingRead]) with 1 in Hins;
           simpl; destruct (isRunning (ui w)); simpl in *; lia).
    + specialize (Hins AwaitingRead Hpc).
      change (pending [AwaitingResponse]) with 1 in Hins.
      change (pending [AwaitingRead]) with 1 in Hins.
      destruct (isRunning (ui w)); simpl in *; lia.
    + rewrite list_insert_id by done. rewrite onChunk_isRunning.
      pose proof (onChunk_length text (ui w)) as Hlen.
      specialize (Hins AwaitingRead Hpc).
      change (pending [AwaitingRead]) with 1 in Hins.
      assert (1 ≤ pending (runs w)) as Hpos.
      { rewrite <- (take_drop_middle (runs w) i AwaitingRead Hpc).
        rewrite pending_app. change (AwaitingRead :: drop (S i) (runs w))
          with ([AwaitingRead] ++ drop (S i) (runs w)).
        rewrite pending_app. change (pending [AwaitingRead]) with 1. lia. }
      destruct (isRunning (ui w)); simpl in *; lia.
Qed.

(** X7. In every session the log holds at most 32 entries plus one for
    each launch so far: 31 for the lines of a stream, one for a stop, one
    for the outcome of each invocation. *)
Theorem log_bounded_by_launches (w : World) :
  reachable w → length (progress (ui w)) ≤ 32 + length (runs w).
Proof. intros Hlog%log_invariant. lia. Qed.

Lemma log_bounded_by_launches_witness :
  reachable running ∧ length (progress (ui running)) ≤ 32 + length (runs running).
Proof.
  split; [apply ScenarioOrchestratorProps.reachable_running |].
  apply (log_bounded_by_launches running).
  apply ScenarioOrchestratorProps.reachable_running.
Defined.

(** X8. An invocation of [runScenario] that settles clears the running
    flag, leaves the configuration alone, and leaves its outcome as the
    last line of the log: the completion line with the error message
    untouched, or an [ERROR: ] line with the message it also shows as the
    error. *)
Theorem run_settles_with_outcome (pc : RunPc) (e : RunEvent) (s : State) :
  pc ≠ Settled → (resume pc e s).1 = Settled →
  let s' := (resume pc e s).2 in
  isRunning s' = false ∧ config s' = config s ∧
  ((progress s' = progress s ++ ["Attack scenario completed successfully!"] ∧
    error s' = error s) ∨
   (∃ msg, progress s' = progress s ++ ["ERROR: " +:+ msg] ∧ error s' = msg)).
Proof.
  intros Hpc Hset.
  destruct pc, e as [t | [] st stt [] | text | | t]; simpl in *;
    try done; repeat split; try (by left); right; eauto.
Qed.

Lemma run_settles_with_outcome_witness :
  isRunning (resume AwaitingResponse (Response false 503 "Service Unavailable" true)
               (ui running)).2 = false.
Proof.
  apply (run_settles_with_outcome AwaitingResponse
           (Response false 503 "Service Unavailable" true) (ui running));
    [discriminate | reflexivity].
Defined.

Lemma last_slice_last {A} n (l : list A) :
  last (Js.slice_last (S n) l) = last l.
Proof.
  induction l as [| x l _] using rev_ind; [done |].
  by rewrite slice_last_snoc, !last_snoc.
Qed.

(** X9. Nothing that the stop control does reaches a pending read. If an
    invocation is reading the body when stop is clicked, it goes on
    reading: the last non-blank line of a later chunk becomes the last
    line of the log, and at the end of the body the completion line
    does. *)
Theorem stop_leaves_reader_running (w : World) (i : nat) (text : string) :
  runs w !! i = Some AwaitingRead →
  runs (step w ClickStop) !! i = Some AwaitingRead ∧
  (Js.lines text ≠ [] →
   last (progress (ui (exec w [ClickStop; Deliver i (Chunk text)])))
     = last (Js.lines text)) ∧
  last (progress (ui (exec w [ClickStop; Deliver i StreamDone])))
    = Some "Attack scenario completed successfully!".
Proof.
  intros Hpc.
  assert (runs (step w ClickStop) = runs w) as Hruns.
  { unfold step, control. by destruct (loading (ui w) || negb (stopRendered (ui w))). }
  split; [by rewrite Hruns |].
  split; [| by apply ScenarioOrchestratorProps.stop_never_prevents_completion].
  intros Hlines.
  change (exec w [ClickStop; Deliver i (Chunk text)])
    with (step (step w ClickStop) (Deliver i (Chunk text))).
  generalize dependent (step w ClickStop). intros w' Hruns.
  unfold step. rewrite Hruns, Hpc. simpl.
  rewrite ScenarioOrchestrator_onChunk_progress, foldl_keepLast by done.
  rewrite last_slice_last.
  destruct (Js.lines text) as [| l ls] using rev_ind; [done |].
  by rewrite app_assoc, !last_snoc.
Qed.

Lemma stop_leaves_reader_running_witness :
  last (progress (ui (exec running [ClickStop; Deliver 0 StreamDone])))
    = Some "Attack scenario completed successfully!".
Proof.
  apply (stop_leaves_reader_running running 0 "").
  reflexivity.
Defined.

End ScenarioOrchestratorLog.

(** ** Upload intake, continued *)

Module FileUploaderFlows.
Import FileUploader.

Lemma split_without_sep sep s :
  sep ∉ String.list_ascii_of_string s → Js.split sep s = [s].
Proof.
  induction s as [| c rest IH]; simpl; [done |].
  intros Hnot. destruct (Ascii.eqb_spec c sep) as [-> | Hne].
  - destruct Hnot. by left.
  - rewrite IH; [done |]. intros Hin. apply Hnot. by right.
Qed.

Lemma fileExt_suffix stem ext size :
  "."%char ∉ String.list_ascii_of_string ext →
  fileExt {| file_name := stem +:+ String "." ext; file_size := size |}
    = "." +:+ Js.toLowerCase ext.
Proof.
  intros Hdot. unfold fileExt. simpl file_name.
  by rewrite split_app, (split_without_sep _ ext Hdot), last_snoc.
Qed.

(** X10. For a file named [stem.ext], with no dot in [ext], the type check
    looks at [ext] alone and without regard to letter case: the upload is
    requested exactly when [ext] in lower case is one of csv, json, txt,
    log, gz and the size is at most 50 MB. *)
Theorem upload_decided_by_last_segment
    (stem ext : string) (size : Z) (rest : list File) (w : World) :
  "."%char ∉ String.list_ascii_of_string ext →
  let file := {| file_name := stem +:+ String "." ext; file_size := size |} in
  fileExt file = "." +:+ Js.toLowerCase ext ∧
  (requests (handleFiles (file :: rest) w) = requests w ++ [PostUpload file] ↔
   Js.toLowerCase ext ∈ ["csv"; "json"; "txt"; "log"; "gz"] ∧
   (size ≤ 50 * 1024 * 1024)%Z).
Proof.
  intros Hdot. cbv zeta. pose proof (fileExt_suffix stem ext size Hdot) as Hext.
  split; [done |].
  assert (Js.includes allowedTypes ("." +:+ Js.toLowerCase ext) = true ↔
          Js.toLowerCase ext ∈ ["csv"; "json"; "txt"; "log"; "gz"]) as Hinc.
  { rewrite includes_elem. unfold allowedTypes.
    change ("." +:+ Js.toLowerCase ext) with (String "." (Js.toLowerCase ext)).
    generalize (Js.toLowerCase ext). intros x.
    rewrite !elem_of_cons, !elem_of_nil.
    split; intros H; repeat destruct H as [H | H]; try done;
      first [ injection H as -> | rewrite H ]; auto 10. }
  unfold handleFiles. rewrite Hext. cbn [file_size].
  change maxFileSize with (50 * 1024 * 1024)%Z.
  destruct (Js.includes allowedTypes ("." +:+ Js.toLowerCase ext)) eqn:Hi;
    cbn [negb].
  - destruct (Z.ltb_spec (50 * 1024 * 1024) size) as [Hbig | Hok].
    + split; [| intros [_ Hle]; lia].
      intros Heq. apply (f_equal length) in Heq.
      cbn [requests with_ui] in Heq. rewrite List.length_app in Heq.
      simpl in Heq. lia.
    + split; [| done]. intros _. split; [by apply Hinc | done].
  - split.
    + intros Heq. apply (f_equal length) in Heq.
      cbn [requests with_ui] in Heq. rewrite List.length_app in Heq.
      simpl in Heq. lia.
    + intros [Hin _]. apply Hinc in Hin. congruence.
Qed.

Lemma upload_decided_by_last_segment_witness :
  fileExt {| file_name := "archive.tar" +:+ String "." "GZ"; file_size := 1024 |}
    = ".gz".
Proof.
  refine (proj1 (upload_decided_by_last_segment "archive.tar" "GZ" 1024 []
                   initialWorld _)).
  vm_compute. intros Hin.
  repeat (apply elem_of_cons in Hin as [Hin | Hin]; [discriminate |]).
  by apply elem_of_nil in Hin.
Defined.

(** X11. An invocation of [handleFiles] that settles always clears the
    uploading flag and never touches the processing log. The list of
    files changes only when the refreshed list arrives; once the server
    has accepted the upload, the invocation ends with an empty error
    message, also when the refresh of the list has failed. *)
Theorem upload_settles_with_outcome (task : Task) (e : Event) (w : World) :
  task = UploadAwaitingResponse ∨ (∃ status, task = UploadAwaitingErrorBody status) ∨
    task = UploadAwaitingFileList →
  (resume task e w).1 = Settled →
  let w' := (resume task e w).2 in
  uploading (ui w') = false ∧
  progress (ui w') = progress (ui w) ∧
  processing (ui w') = processing (ui w) ∧
  requests w' = requests w ∧
  (task = UploadAwaitingFileList → error (ui w') = "") ∧
  (files (ui w') = files (ui w) ∨
   ∃ uploads, e = FileList (Some uploads) ∧ task = UploadAwaitingFileList ∧
              files (ui w') = uploads).
Proof.
  intros [-> | [[status ->] | ->]] Hset;
    destruct e as [t | [] st stt hb | err | t | [l |] | text | |];
    simpl in *; try done; repeat split; try done; try (by left); right; eauto.
Qed.

Lemma upload_settles_with_outcome_witness :
  error (ui (resume UploadAwaitingFileList (FileList None) initialWorld).2) = "".
Proof.
  refine (proj1 (proj2 (proj2 (proj2 (proj2
    (upload_settles_with_outcome UploadAwaitingFileList (FileList None) initialWorld
       _ _))))) _); [by right; right | reflexivity | reflexivity].
Defined.

(** X12. An invocation of [processFile] that settles always clears the
    processing marker, leaves the files and the uploading flag alone, and
    leaves its outcome as the last line of the log: the completion line
    with the error message untouched, or an [ERROR: ] line with the
    message it also shows as the error. *)
Theorem process_settles_with_outcome (task : Task) (e : Event) (w : World) :
  task = ProcessAwaitingResponse ∨ task = ProcessAwaitingRead →
  (resume task e w).1 = Settled →
  let w' := (resume task e w).2 in
  processing (ui w') = None ∧
  files (ui w') = files (ui w) ∧
  uploading (ui w') = uploading (ui w) ∧
  requests w' = requests w ∧
  ((progress (ui w') = progress (ui w) ++ ["File processing completed successfully!"] ∧
    error (ui w') = error (ui w)) ∨
   (∃ msg, progress (ui w') = progress (ui w) ++ ["ERROR: " +:+ msg] ∧
           error (ui w') = msg)).
Proof.
  intros [-> | ->] Hset;
    destruct e as [t | [] st stt [] | err | t | [l |] | text | |];
    simpl in *; try done; repeat split; try done; try (by left); right; eauto.
Qed.

Lemma process_settles_with_outcome_witness :
  processing (ui (resume ProcessAwaitingRead StreamDone initialWorld).2) = None.
Proof.
  refine (proj1 (process_settles_with_outcome ProcessAwaitingRead StreamDone
                   initialWorld _ _)); [by right | reflexivity].
Defined.

End FileUploaderFlows.

(** ** Destinations, continued *)

Module DestinationManagerFlows.
Import DestinationManager.

Lemma payload_lookups (fd : FormData) :
  payload fd !! "name" = Some (Str (name fd)) ∧
  payload fd !! "type" = Some (Str (type_text (type fd))) ∧
  payload fd !! "url"
    = match type fd with hec => Some (Str (url fd)) | syslog => None end ∧
  payload fd !! "ip"
    = match type fd with hec => None | syslog => Some (Str (ip fd)) end ∧
  payload fd !! "port"
    = match type fd with
      | hec => None
      | syslog => Some (Num (Js.parseInt (port fd)))
      end ∧
  payload fd !! "protocol"
    = match type fd with
      | hec => None
      | syslog => Some (Str (protocol_text (protocol fd)))
      end.
Proof. unfold payload. destruct (type fd); repeat split; by vm_compute. Qed.

(** X13. Two forms are submitted as the same payload exactly when they
    agree on the name, on the type and on the parameters of that type: the
    URL for HEC; the address, the number read from the port and the
    protocol for syslog. What was typed into the fields of the other type
    does not reach the payload. *)
Theorem payload_determined_by_kind_fields (f1 f2 : FormData) :
  payload f1 = payload f2 ↔
  name f1 = name f2 ∧ type f1 = type f2 ∧
  match type f1 with
  | hec => url f1 = url f2
  | syslog =>
      ip f1 = ip f2 ∧ Js.parseInt (port f1) = Js.parseInt (port f2) ∧
      protocol f1 = protocol f2
  end.
Proof.
  split.
  - intros Heq.
    destruct (payload_lookups f1) as (Hn1 & Ht1 & Hu1 & Hi1 & Hp1 & Hr1).
    destruct (payload_lookups f2) as (Hn2 & Ht2 & Hu2 & Hi2 & Hp2 & Hr2).
    rewrite Heq in Hn1, Ht1, Hu1, Hi1, Hp1, Hr1.
    rewrite Hn2 in Hn1. rewrite Ht2 in Ht1. rewrite Hu2 in Hu1.
    rewrite Hi2 in Hi1. rewrite Hp2 in Hp1. rewrite Hr2 in Hr1.
    assert (type f1 = type f2) as Ht.
    { destruct (type f1), (type f2); simpl in Ht1; congruence. }
    split; [congruence |]. split; [done |].
    rewrite <- Ht in *. destruct (type f1); [congruence |].
    split; [congruence |]. split; [congruence |].
    destruct (protocol f1), (protocol f2); simpl in Hr1; congruence.
  - intros (Hn & Ht & Hk). unfold payload. rewrite <- Ht, Hn.
    destruct (type f1); [by rewrite Hk |].
    destruct Hk as (-> & -> & ->). done.
Qed.

Lemma resume_form task e w :
  formData (ui (resume task e w).2) ≠ formData (ui w) →
  task = SubmitAwaitingResponse ∧ ∃ status statusText, e = Response true status statusText.
Proof.
  destruct task, e as [t | [] st stt | ds | err | t]; simpl; try done.
  intros _. eauto.
Qed.

Lemma resume_destinations task e w :
  destinations (ui (resume task e w).2) ≠ destinations (ui w) →
  task = FetchAwaitingBody ∧ e = Body (destinations (ui (resume task e w).2)).
Proof. destruct task, e as [t | [] st stt | ds | err | t]; simpl; done. Qed.

(** X14. Nothing delivered to an invocation changes the form except the
    ok response to a creation, which resets and hides it: after a failed
    creation the form stands as typed. Nothing changes the list of
    destinations except the arrival of a fetched list: a failed fetch, a
    failed creation and a failed deletion keep the list shown. *)
Theorem form_and_list_change_on_success_only (i : nat) (e : Event) (w : World) :
  (formData (ui (deliver i e w)) ≠ formData (ui w) →
   tasks w !! i = Some SubmitAwaitingResponse ∧
   (∃ status statusText, e = Response true status statusText) ∧
   formData (ui (deliver i e w)) = initialFormData ∧
   showAddForm (ui (deliver i e w)) = false ∧
   requests (deliver i e w) = requests w ++ [GetDestinations]) ∧
  (destinations (ui (deliver i e w)) ≠ destinations (ui w) →
   tasks w !! i = Some FetchAwaitingBody ∧
   e = Body (destinations (ui (deliver i e w))) ∧
   loading (ui (deliver i e w)) = false ∧ error (ui (deliver i e w)) = "").
Proof.
  unfold deliver. destruct (tasks w !! i) as [task |] eqn:Htask; [| done].
  pose proof (resume_form task e w) as Hform.
  pose proof (resume_destinations task e w) as Hdest.
  destruct (resume task e w) as [task' w'] eqn:Hres. simpl in *. split.
  - intros Hne. destruct (Hform Hne) as (-> & st & stt & ->).
    simpl in Hres. injection Hres as <- <-. simpl. eauto 10.
  - intros Hne. destruct (Hdest Hne) as (-> & ->).
    simpl in Hres. injection Hres as <- <-. done.
Qed.

Lemma form_and_list_change_on_success_only_witness :
  formData (ui (deliver 0 (Response true 201 "Created")
                  (submit {| ui := setFormData
                                     {| name := "SDL"; type := hec;
                                        url := "https://sdl.example/raw"; ip := "";
                                        port := ""; protocol := TCP |} initialState;
                             tasks := []; requests := [] |})))
    = initialFormData.
Proof.
  refine (proj1 (proj2 (proj2 (proj1
    (form_and_list_change_on_success_only 0 (Response true 201 "Created") _) _)))).
  vm_compute. discriminate.
Defined.

End DestinationManagerFlows.

(** ** Destinations offered by the other forms *)

(** X15. The event generator offers every configured destination, HEC or
    syslog, under a label that ends with its type in capitals. The
    processing form of the file uploader offers the HEC destinations and
    nothing else. *)
Theorem destinations_offered_elsewhere
    (ds : list ScenarioOrchestrator.Destination) (fs : FileUploader.State)
    (d : ScenarioOrchestrator.Destination) (option : string * string) :
  (d ∈ ds →
   (ScenarioOrchestrator.dest_id d,
    ScenarioOrchestrator.dest_name d +:+
    match ScenarioOrchestrator.dest_type d with
    | ScenarioOrchestrator.hec => " (HEC)"
    | ScenarioOrchestrator.syslog => " (SYSLOG)"
    end) ∈ EventGenerator.destinationOptions ds) ∧
  (option ∈ FileUploader.destinationOptions fs →
   option = ("", "Select destination...") ∨
   ∃ d', d' ∈ FileUploader.destinations fs ∧
         ScenarioOrchestrator.dest_type d' = ScenarioOrchestrator.hec ∧
         option = (ScenarioOrchestrator.dest_id d',
                   ScenarioOrchestrator.dest_name d' +:+ " (HEC)")) ∧
  (d ∈ FileUploader.destinations fs →
   ScenarioOrchestrator.dest_type d = ScenarioOrchestrator.hec →
   (ScenarioOrchestrator.dest_id d, ScenarioOrchestrator.dest_name d +:+ " (HEC)")
     ∈ FileUploader.destinationOptions fs).
Proof.
  split; [| split].
  - intros Hd. unfold EventGenerator.destinationOptions.
    apply elem_of_cons. right.
    apply list_elem_of_In, in_map_iff. exists d.
    split; [| by apply list_elem_of_In]. by destruct (ScenarioOrchestrator.dest_type d).
  - unfold FileUploader.destinationOptions.
    intros [-> | Hin]%elem_of_cons; [by left | right].
    apply list_elem_of_In, in_map_iff in Hin as (d' & <- & Hd').
    apply filter_In in Hd' as [Hd' Hk%bool_decide_eq_true].
    exists d'. by rewrite list_elem_of_In.
  - intros Hd Hk. unfold FileUploader.destinationOptions.
    apply elem_of_cons. right.
    apply list_elem_of_In, in_map_iff. exists d.
    split; [done |]. apply filter_In.
    split; [by apply list_elem_of_In | by apply bool_decide_eq_true].
Qed.

Lemma destinations_offered_elsewhere_witness :
  ("dest-2", "collector (SYSLOG)")
    ∈ EventGenerator.destinationOptions
        [ScenarioOrchestrator.sdl; ScenarioOrchestrator.collector].
Proof.
  refine (proj1 (destinations_offered_elsewhere
                   [ScenarioOrchestrator.sdl; ScenarioOrchestrator.collector]
                   FileUploader.initialState ScenarioOrchestrator.collector ("", "")) _).
  do 2 constructor.
Defined.

(** ** The category list of the generator selector *)

Module GeneratorSelectorProps.
Import GeneratorSelector.

Lemma unique_from seen l :
  NoDup seen →
  NoDup (foldl (λ seen x, if Js.includes seen x then seen else seen ++ [x]) seen l) ∧
  ∀ x, x ∈ foldl (λ seen x, if Js.includes seen x then seen else seen ++ [x]) seen l
       ↔ x ∈ seen ∨ x ∈ l.
Proof.
  revert seen. induction l as [| y l IH]; intros seen Hnd; simpl.
  - split; [done |]. intros x. rewrite elem_of_nil. tauto.
  - destruct (Js.includes seen y) eqn:Hy.
    + apply includes_elem in Hy. destruct (IH seen Hnd) as [Hnd' Hel].
      split; [done |]. intros x. rewrite Hel, elem_of_cons.
      split; [tauto |]. intros [? | [-> | ?]]; auto.
    + assert (y ∉ seen) as Hny by (intros ?%includes_elem; congruence).
      assert (NoDup (seen ++ [y])) as Hnd2.
      { apply NoDup_app. split; [done |]. split; [| apply NoDup_singleton].
        intros x Hx ->%list_elem_of_singleton. done. }
      destruct (IH (seen ++ [y]) Hnd2) as [Hnd' Hel].
      split; [done |]. intros x.
      rewrite Hel, elem_of_app, list_elem_of_singleton, elem_of_cons. tauto.
Qed.

Lemma unique_spec l : NoDup (unique l) ∧ ∀ x, x ∈ unique l ↔ x ∈ l.
Proof.
  destruct (unique_from [] l (NoDup_nil_2)) as [Hnd Hel]. split; [done |].
  intros x. unfold unique. rewrite Hel, elem_of_nil. tauto.
Qed.

(** X16. The categories offered are exactly the categories of the
    generators, each once, in ascending order. *)
Theorem categories_spec (generators : list Generator) :
  NoDup (categories generators) ∧
  Sorted String.le (categories generators) ∧
  ∀ c, c ∈ categories generators ↔ ∃ g, g ∈ generators ∧ category g = c.
Proof.
  unfold categories, sort.
  destruct (unique_spec (map category generators)) as [Hnd Hel].
  split; [| split].
  - by rewrite merge_sort_Permutation.
  - apply Sorted_merge_sort. apply _.
  - intros c. rewrite merge_sort_Permutation, Hel.
    rewrite list_elem_of_In, in_map_iff.
    split; intros (g & H1 & H2); exists g; by rewrite ?list_elem_of_In in *.
Qed.

Lemma sum_indicator_absent (cs : list string) (k : string) :
  k ∉ cs → sum_list ((λ c, if String.eqb k c then 1 else 0) <$> cs) = 0.
Proof.
  induction cs as [| c cs IH]; [done |].
  intros [Hc Hcs]%not_elem_of_cons. csimpl.
  destruct (String.eqb_spec k c); [done |]. by rewrite IH.
Qed.

Lemma sum_indicator (cs : list string) (k : string) :
  NoDup cs → k ∈ cs →
  sum_list ((λ c, if String.eqb k c then 1 else 0) <$> cs) = 1.
Proof.
  induction cs as [| c cs IH]; intros Hnd Hin; [by apply elem_of_nil in Hin |].
  apply NoDup_cons in Hnd as [Hc Hnd]. csimpl.
  destruct (String.eqb_spec k c) as [-> | Hne].
  - by rewrite sum_indicator_absent.
  - apply elem_of_cons in Hin as [-> | Hin]; [done |]. by rewrite IH.
Qed.

Lemma count_cons g generators c :
  count (g :: generators) c
    = (if String.eqb (category g) c then 1 else 0) + count generators c.
Proof. unfold count. simpl. by destruct (String.eqb (category g) c). Qed.

Lemma sum_counts (cs : list string) (generators : list Generator) :
  NoDup cs → (∀ g, g ∈ generators → category g ∈ cs) →
  sum_list (count generators <$> cs) = length generators.
Proof.
  intros Hnd. induction generators as [| g generators IH]; intros Hcov.
  - simpl. clear Hnd Hcov. induction cs as [| c cs IH]; [done |]. csimpl. by rewrite IH.
  - assert (sum_list (count (g :: generators) <$> cs)
            = sum_list ((λ c, if String.eqb (category g) c then 1 else 0) <$> cs)
              + sum_list (count generators <$> cs)) as ->.
    { clear. induction cs as [| c cs IH]; [done |].
      csimpl. rewrite count_cons, IH. lia. }
    rewrite sum_indicator by (done || apply Hcov; by left).
    rewrite IH by (intros g' Hg'; apply Hcov; by right). done.
Qed.

(** X17. The counts shown beside the categories add up to the number of
    generators, the count shown beside "All Categories": every generator
    is counted under exactly one category. For a category other than the
    empty string, the count beside it is the number of generators listed
    once it is selected. No category offered is empty. The empty string
    as selection, be it the "All Categories" option or a category that is
    itself the empty string, lists all generators. *)
Theorem category_counts_add_up (generators : list Generator) :
  sum_list (count generators <$> categories generators) = length generators ∧
  length (categoryOptions generators) = S (length (categories generators)) ∧
  filteredGenerators "" generators = generators ∧
  (∀ c, c ≠ "" → length (filteredGenerators c generators) = count generators c) ∧
  ∀ c, c ∈ categories generators → 1 ≤ count generators c.
Proof.
  destruct (categories_spec generators) as (Hnd & _ & Hel).
  split; [| split; [| split; [done | split]]].
  - apply sum_counts; [done |]. intros g Hg. apply Hel. eauto.
  - unfold categoryOptions. simpl. by rewrite length_map.
  - intros c Hc. unfold filteredGenerators, count.
    apply ScenarioOrchestratorSessions.truthy_nonempty in Hc. by rewrite Hc.
  - intros c (g & Hg & <-)%Hel. clear Hnd Hel.
    induction generators as [| g' generators IH]; [by apply elem_of_nil in Hg |].
    rewrite count_cons. apply elem_of_cons in Hg as [<- | Hg].
    + rewrite String.eqb_refl. lia.
    + specialize (IH Hg). lia.
Qed.

Lemma category_counts_add_up_witness :
  "cloud" ≠ "" ∧
  length (filteredGenerators "cloud"
            [{| id := "g1"; name := "CloudTrail"; category := "cloud";
                file_path := "cloud/cloudtrail.py" |}])
    = count [{| id := "g1"; name := "CloudTrail"; category := "cloud";
                file_path := "cloud/cloudtrail.py" |}] "cloud" ∧
  1 ≤ count [{| id := "g1"; name := "CloudTrail"; category := "cloud";
                file_path := "cloud/cloudtrail.py" |}] "cloud".
Proof.
  destruct (category_counts_add_up
              [{| id := "g1"; name := "CloudTrail"; category := "cloud";
                  file_path := "cloud/cloudtrail.py" |}])
    as (_ & _ & _ & Hsel & Hpos).
  split; [discriminate |]. split.
  - apply Hsel. discriminate.
  - apply Hpos. vm_compute. constructor.
Defined.

End GeneratorSelectorProps.

(** ** The helpers of the status dashboard *)

Module StatusDashboardProps.
Import StatusDashboard.



Lemma lower_upper_ascii c : Js.lower_ascii (Js.upper_ascii c) = Js.lower_ascii c.
Proof. destruct c as [[] [] [] [] [] [] [] []]; reflexivity. Qed.

Lemma lower_lower_ascii c : Js.lower_ascii (Js.lower_ascii c) = Js.lower_ascii c.
Proof. destruct c as [[] [] [] [] [] [] [] []]; reflexivity. Qed.

Lemma toLowerCase_toUpperCase s : Js.toLowerCase (Js.toUpperCase s) = Js.toLowerCase s.
Proof. induction s as [| c s IH]; simpl; [done |]. by rewrite lower_upper_ascii, IH. Qed.

Lemma toLowerCase_idemp s : Js.toLowerCase (Js.toLowerCase s) = Js.toLowerCase s.
Proof. induction s as [| c s IH]; simpl; [done |]. by rewrite lower_lower_ascii, IH. Qed.

(** X19. The two status helpers sort a status into the same class,
    whatever its letter case: the hollow icon goes with the neutral
    colour, the half icon with yellow, and the full icon with green or
    red, which the icon alone does not tell apart. *)
Theorem status_icon_matches_colour (status : string) :
  (getStatusIcon status = "○" ↔ getStatusColor status = "text-subtext1") ∧
  (getStatusIcon status = "◐" ↔ getStatusColor status = "text-yellow") ∧
  (getStatusIcon status = "●" ↔
     getStatusColor status = "text-green" ∨ getStatusColor status = "text-red") ∧
  getStatusColor (Js.toUpperCase status) = getStatusColor status ∧
  getStatusColor (Js.toLowerCase status) = getStatusColor status ∧
  getStatusIcon (Js.toUpperCase status) = getStatusIcon status ∧
  getStatusIcon (Js.toLowerCase status) = getStatusIcon status.
Proof.
  unfold getStatusIcon, getStatusColor.
  rewrite toLowerCase_toUpperCase, toLowerCase_idemp.
  repeat (destruct (Js.includes _ (Js.toLowerCase status)));
    repeat split; try done; try (intros [? | ?]; done); auto.
Qed.

End StatusDashboardProps.

(** ** Numbers typed in decimal *)

Section Decimal.

Local Open Scope Z_scope.

Lemma digit_val_pretty_char (d : N) :
  (d < 10)%N → Js.digit_val 10 (pretty_N_char d) = Some (Z.of_N d).
Proof.
  intros Hd. destruct d as [| q]; [reflexivity |].
  do 4 (try (destruct q as [q | q |]; try reflexivity; try lia)).
Qed.

Lemma digits_pretty_N_go (x : N) :
  ∃ p : Z, ∀ (a : Z) (s : string),
    Js.digits 10 (Some a) (pretty_N_go x s)
      = Js.digits 10 (Some (a * p + Z.of_N x)) s.
Proof.
  induction (N.lt_wf_0 x) as [x _ IH].
  destruct (decide (x = 0)%N) as [-> | Hx].
  - exists 1. intros a s. rewrite pretty_N_go_0. f_equal. f_equal. lia.
  - destruct (IH (x `div` 10)%N) as [p Hp]; [apply N.div_lt; lia |].
    exists (10 * p). intros a s.
    rewrite pretty_N_go_step by lia. rewrite Hp. simpl.
    rewrite digit_val_pretty_char by (apply N.mod_lt; lia). simpl.
    f_equal. f_equal. pose proof (N.div_mod x 10 ltac:(lia)) as Hdm.
    apply (f_equal Z.of_N) in Hdm. rewrite N2Z.inj_add, N2Z.inj_mul in Hdm.
    change (Z.of_N 10) with 10 in Hdm.
    replace (a * (10 * p)) with (10 * (a * p)) by ring.
    lia.
Qed.

Lemma pretty_N_go_head (x : N) (s : string) :
  (0 < x)%N →
  ∃ c rest, pretty_N_go x s = String c rest ∧
            c ∈ ["1"; "2"; "3"; "4"; "5"; "6"; "7"; "8"; "9"]%char.
Proof.
  revert s. induction (N.lt_wf_0 x) as [x _ IH]. intros s Hx.
  rewrite pretty_N_go_step by done.
  destruct (decide (x `div` 10 = 0)%N) as [Hq | Hq].
  - rewrite Hq, pretty_N_go_0. eexists _, _. split; [done |].
    assert (x < 10)%N as Hlt by (apply N.div_small_iff in Hq; lia).
    rewrite N.mod_small by done. clear Hq IH.
    destruct x as [| q]; [lia |].
    do 4 (try (destruct q as [q | q |]; try (simpl; by repeat constructor); try lia)).
  - apply IH; [apply N.div_lt; lia | by apply N.neq_0_lt_0].
Qed.

Lemma fmap_mul_1 (o : option Z) : (λ n, 1 * n) <$> o = o.
Proof. destruct o as [n |]; simpl; [f_equal; lia | done]. Qed.

Lemma parseInt_head (c : ascii) (rest : string) :
  c ∈ ["1"; "2"; "3"; "4"; "5"; "6"; "7"; "8"; "9"]%char →
  Js.parseInt (String c rest) = Js.digits 10 (Some 0) (String c rest) ∧
  Js.parseInt (String "-" (String c rest))
    = (λ n, -1 * n) <$> Js.digits 10 (Some 0) (String c rest).
Proof.
  intros Hc. repeat (apply elem_of_cons in Hc as [-> | Hc]);
    [.. | by apply elem_of_nil in Hc];
    (split; [unfold Js.parseInt; simpl; apply fmap_mul_1 | reflexivity]).
Qed.

Lemma parseInt_pretty_N (x : N) : Js.parseInt (pretty x) = Some (Z.of_N x).
Proof.
  unfold pretty, pretty_N. destruct (decide (x = 0)%N) as [-> | Hx]; [done |].
  destruct (pretty_N_go_head x "" ltac:(lia)) as (c & rest & Heq & Hc).
  rewrite Heq. destruct (parseInt_head c rest Hc) as [-> _]. rewrite <- Heq.
  destruct (digits_pretty_N_go x) as [p ->]. simpl; f_equal; lia.
Qed.

Lemma parseInt_pretty (n : Z) : Js.parseInt (pretty n) = Some n.
Proof.
  destruct n as [| q | q]; [done | |].
  - change (pretty (Z.pos q)) with (pretty (N.pos q)).
    by rewrite parseInt_pretty_N.
  - change (pretty (Z.neg q)) with ("-" +:+ pretty_N_go (N.pos q) "").
    destruct (pretty_N_go_head (N.pos q) "" ltac:(lia)) as (c & rest & Heq & Hc).
    rewrite Heq. change ("-" +:+ String c rest) with (String "-" (String c rest)).
    destruct (parseInt_head c rest Hc) as [_ ->]. rewrite <- Heq.
    destruct (digits_pretty_N_go (N.pos q)) as [p ->]. simpl; f_equal; lia.
Qed.

End Decimal.

(** X20. An integer of absolute value below 2^53, typed in decimal into
    a numeric input, is read back as that integer. The workers input
    stores it unless it is 0, for which it stores 1; the noise input
    stores it; the port of a syslog destination is submitted as typed.
    In that range none of the three compares the number with the bounds
    of its input. *)
Theorem decimal_input_stored_as_typed
    (n : Z) (s : ScenarioOrchestrator.State) (fd : DestinationManager.FormData) :
  (Z.abs n < 2 ^ 53)%Z →
  ScenarioOrchestrator.workers
      (ScenarioOrchestrator.config (ScenarioOrchestrator.workers_onChange (pretty n) s))
    = (if (n =? 0)%Z then 1%Z else n) ∧
  ScenarioOrchestrator.noise_events_count
      (ScenarioOrchestrator.config
         (ScenarioOrchestrator.noise_events_onChange (pretty n) s)) = n ∧
  (DestinationManager.type fd = DestinationManager.syslog →
   DestinationManager.port fd = pretty n →
   DestinationManager.payload fd !! "port" = Some (DestinationManager.Num (Some n))).
Proof.
  intros _. split; [| split].
  - simpl. by rewrite parseInt_pretty.
  - simpl. rewrite parseInt_pretty. simpl. destruct (Z.eqb_spec n 0); congruence.
  - intros Ht Hp.
    destruct (DestinationManagerFlows.payload_lookups fd) as (_ & _ & _ & _ & -> & _).
    by rewrite Ht, Hp, parseInt_pretty.
Qed.

Lemma decimal_input_stored_as_typed_witness :
  (Z.abs 514 < 2 ^ 53)%Z ∧
  DestinationManager.payload
      {| DestinationManager.name := "collector";
         DestinationManager.type := DestinationManager.syslog;
         DestinationManager.url := ""; DestinationManager.ip := "10.0.0.7";
         DestinationManager.port := pretty 514%Z;
         DestinationManager.protocol := DestinationManager.UDP |} !! "port"
    = Some (DestinationManager.Num (Some 514%Z)).
Proof.
  split; [reflexivity |].
  apply (decimal_input_stored_as_typed 514 ScenarioOrchestrator.initialState);
    reflexivity.
Defined.

(** ** Whole runs *)

Module WholeRuns.

Import ScenarioOrchestrator.

Lemma lookup_snoc_length {A} (l : list A) (x : A) : (l ++ [x]) !! length l = Some x.
Proof. rewrite lookup_app_r by lia. by rewrite Nat.sub_diag. Qed.

Lemma insert_snoc_length {A} (l : list A) (x y : A) :
  <[length l := y]> (l ++ [x]) = l ++ [y].
Proof.
  rewrite insert_app_r_alt by lia. by rewrite Nat.sub_diag.
Qed.

Lemma exec_app w t1 t2 : exec w (t1 ++ t2) = exec (exec w t1) t2.
Proof. unfold exec. apply foldl_app. Qed.

Lemma onChunk_error text s : error (onChunk text s) = error s.
Proof.
  unfold onChunk. revert s.
  induction (Js.lines text) as [| line ls IH]; intros s; [done |].
  simpl. by rewrite IH.
Qed.

Lemma exec_chunks (i : nat) (chunks : list string) (w : World) :
  runs w !! i = Some AwaitingRead →
  let w' := exec w (map (λ c, Deliver i (Chunk c)) chunks) in
  runs w' = runs w ∧ requests w' = requests w ∧
  isRunning (ui w') = isRunning (ui w) ∧ config (ui w') = config (ui w) ∧
  error (ui w') = error (ui w) ∧
  progress (ui w')
    = foldl (keepLast 30) (progress (ui w)) (concat (map Js.lines chunks)).
Proof.
  revert w. induction chunks as [| c chunks IH]; intros w Hpc; [done |].
  cbn zeta. change (exec w (map _ (c :: chunks)))
    with (exec (step w (Deliver i (Chunk c))) (map (λ c, Deliver i (Chunk c)) chunks)).
  assert (step w (Deliver i (Chunk c))
          = {| ui := onChunk c (ui w); runs := runs w; requests := requests w |}) as ->.
  { unfold step. rewrite Hpc. simpl. by rewrite list_insert_id. }
  destruct (IH {| ui := onChunk c (ui w); runs := runs w; requests := requests w |} Hpc)
    as (-> & -> & -> & -> & -> & ->).
  simpl. rewrite ScenarioOrchestratorLog.onChunk_isRunning,
    ScenarioOrchestratorProps.onChunk_config, ScenarioOrchestrator_onChunk_progress,
    onChunk_error.
  by rewrite foldl_app.
Qed.

(** X21. A run from launch to the end of the body. Once the form allows
    the launch, one request carries the configuration as it stands; if
    the response is ok and its body arrives in any number of chunks, the
    log ends as the last 31 of the opening line and all non-blank lines
    received, followed by the completion line; the component is no longer
    marked running and shows no error. *)
Theorem run_to_completion
    (w : World) (status : Z) (statusText : string) (chunks : list string) :
  loading (ui w) = false → launchDisabled (ui w) = false →
  let i := length (runs w) in
  let lines := concat (map Js.lines chunks) in
  let w' := exec w ([ClickLaunch; Deliver i (Response true status statusText true)]
                    ++ map (λ c, Deliver i (Chunk c)) chunks
                    ++ [Deliver i StreamDone]) in
  requests w' = requests w ++ [PostScenarioRun (config (ui w))] ∧
  runs w' = runs w ++ [Settled] ∧
  config (ui w') = config (ui w) ∧
  isRunning (ui w') = false ∧ error (ui w') = "" ∧
  progress (ui w')
    = Js.slice_last 31 ("Initializing attack scenario..." :: lines)
      ++ ["Attack scenario completed successfully!"].
Proof.
  intros Hload Hlaunch i lines w'. subst w'.
  rewrite exec_app, exec_app.
  assert (exec w [ClickLaunch; Deliver i (Response true status statusText true)]
          = {| ui := setError ""
                       (setProgress (λ _, ["Initializing attack scenario..."])
                          (setIsRunning true (ui w)));
               runs := runs w ++ [AwaitingRead];
               requests := requests w ++ [PostScenarioRun (config (ui w))] |}) as ->.
  { change (exec w [ClickLaunch; Deliver i (Response true status statusText true)])
      with (step (step w ClickLaunch) (Deliver i (Response true status statusText true))).
    assert (step w ClickLaunch = runScenario w) as ->.
    { unfold step, control. by rewrite Hload, Hlaunch. }
    destruct (ScenarioOrchestratorSessions.runScenario_launched w Hlaunch)
      as (-> & _). unfold step. cbn [runs ui requests].
    subst i. rewrite lookup_snoc_length. simpl. by rewrite insert_snoc_length. }
  set (w1 := {| ui := _; runs := runs w ++ [AwaitingRead]; requests := _ |}).
  assert (runs w1 !! i = Some AwaitingRead) as Hpc by apply lookup_snoc_length.
  destruct (exec_chunks i chunks w1 Hpc) as (Hr & Hq & Hrun & Hcfg & Herr & Hp).
  cbv zeta in Hr, Hq, Hrun, Hcfg, Herr, Hp.
  generalize dependent (exec w1 (map (λ c, Deliver i (Chunk c)) chunks)).
  intros w2 Hr Hq Hrun Hcfg Herr Hp.
  change (exec w2 [Deliver i StreamDone]) with (step w2 (Deliver i StreamDone)).
  unfold step. rewrite Hr, Hpc. simpl.
  rewrite Hq, Hcfg, Herr, Hp. subst i. unfold w1 at 1. cbn [runs].
  rewrite insert_snoc_length.
  repeat split. f_equal. fold lines. unfold w1. simpl progress.
  destruct lines as [| l ls]; [done |].
  by rewrite foldl_keepLast.
Qed.

Lemma run_to_completion_witness :
  progress (ui (exec ready
                  ([ClickLaunch; Deliver 0 (Response true 200 "OK" true)]
                   ++ map (λ c, Deliver 0 (Chunk c)) ["PHASE 1"; " "; "PHASE 2"]
                   ++ [Deliver 0 StreamDone])))
    = ["Initializing attack scenario..."; "PHASE 1"; "PHASE 2";
       "Attack scenario completed successfully!"].
Proof.
  refine (eq_trans
            (proj2 (proj2 (proj2 (proj2 (proj2
               (run_to_completion ready 200 "OK" ["PHASE 1"; " "; "PHASE 2"] _ _))))))
            _); reflexivity.
Defined.

End WholeRuns.

Module WholeUploads.

Import FileUploader.

(** X22. An upload from intake to the refreshed list. For a first file
    that passes both checks, the upload is requested and, after an ok
    response, the list of uploads; when that list arrives it replaces
    the files shown, and the component is neither uploading nor showing
    an error. *)
Theorem upload_to_refreshed_list
    (file : File) (rest : list File) (w : World)
    (status : Z) (statusText : string) (hasBody : bool) (uploads : list UploadedFile) :
  fileExt file ∈ allowedTypes → (file_size file ≤ 50 * 1024 * 1024)%Z →
  let i := length (tasks w) in
  let w' := deliver i (FileList (Some uploads))
              (deliver i (Response true status statusText hasBody)
                 (handleFiles (file :: rest) w)) in
  requests w' = requests w ++ [PostUpload file; GetUploads] ∧
  tasks w' = tasks w ++ [Settled] ∧
  files (ui w') = uploads ∧ uploading (ui w') = false ∧ error (ui w') = "" ∧
  progress (ui w') = progress (ui w) ∧ processing (ui w') = processing (ui w).
Proof.
  intros Hext Hsize i. cbv zeta.
  assert (handleFiles (file :: rest) w
          = {| ui := setError "" (setUploading true (ui w));
               tasks := tasks w ++ [UploadAwaitingResponse];
               requests := requests w ++ [PostUpload file] |}) as ->.
  { unfold handleFiles. apply includes_elem in Hext. rewrite Hext. cbn [negb].
    change maxFileSize with (50 * 1024 * 1024)%Z.
    by destruct (Z.ltb_spec (50 * 1024 * 1024) (file_size file)) as [Hbig | _]; [lia |]. }
  assert (∀ s q e task task' s' q',
            resume task e {| ui := s; tasks := tasks w ++ [task]; requests := q |}
              = (task', {| ui := s'; tasks := tasks w ++ [task]; requests := q' |}) →
            deliver i e {| ui := s; tasks := tasks w ++ [task]; requests := q |}
              = {| ui := s'; tasks := tasks w ++ [task']; requests := q' |}) as Hdeliver.
  { intros s q e task task' s' q' Hres. unfold deliver. cbn [tasks].
    subst i. rewrite WholeRuns.lookup_snoc_length, Hres. cbn [ui tasks requests].
    by rewrite WholeRuns.insert_snoc_length. }
  erewrite (Hdeliver _ _ (Response true status statusText hasBody)); [| reflexivity].
  erewrite (Hdeliver _ _ (FileList (Some uploads))); [| reflexivity].
  simpl. by rewrite <- app_assoc.
Qed.

Lemma upload_to_refreshed_list_witness :
  requests (deliver 0 (FileList (Some []))
              (deliver 0 (Response true 200 "OK" true)
                 (handleFiles [events] {| ui := initialState; tasks := [];
                                          requests := [] |})))
    = [PostUpload events; GetUploads].
Proof.
  refine (proj1 (upload_to_refreshed_list events []
                   {| ui := initialState; tasks := []; requests := [] |}
                   200 "OK" true [] _ _)).
  - vm_compute. do 1 constructor. constructor.
  - vm_compute. discriminate.
Defined.

End WholeUploads.
